(** * COSMIC-style functional size estimation over SSA: model and properties

    A shallow embedding of the analysis core of the SSA-based estimator
    (the [main] package that loads a program with [go/packages], builds
    [go/ssa] and optionally runs [go/pointer]).

    - [*ssa.Function] pointers are identifiers [FuncId] into a finite heap
      of [Function] records; [*callgraph.Node] pointers are identifiers
      [NodeId] into a heap of [Node] records.
    - Go maps used as sets or lookups ([localCounts], [entryFuncsSet],
      [visited], [funcToNode], the rule tables) are [gmap] / [gset].
    - A [range] over a Go map visits the keys in an unspecified order: the
      model takes the order as an explicit list (a permutation of the keys).
    - [int] counters are [Z]; every counter of a run is bounded by the number
      of functions and call instructions of the program times the number of
      entries, far below the width of a Go [int] for a program of any
      realistic size, so no wrap-around is written.
    - A nil-pointer dereference ([fn.Pkg.Pkg.Path()] with [fn.Pkg == nil])
      and [log.Fatalf] are explicit outcomes. *)

From stdpp Require Import gmap strings list.
From Stdlib Require Import ZArith.

Open Scope Z_scope.

Set Warnings "-clear-no-such-hyp".

(** ** Data model *)

(** Identifiers stand for the pointers [*ssa.Function] and
    [*callgraph.Node]; a nil pointer is [None] in an [option]. *)
Abbreviation FuncId := nat (only parsing).
Abbreviation NodeId := nat (only parsing).

(** [ssa.Value] as far as [extractFunctionFromValue] inspects it. *)
Inductive Value :=
  | VNil
  | VFunction (fn : FuncId)
  | VMakeClosure (Fn : Value)
  | VOther.

(** [ssa.CallCommon]: the argument list and [StaticCallee()]. *)
Record CallCommon := {
  StaticCallee : option FuncId;
  Args : list Value
}.

(** [ssa.Instruction]: the three call instructions and everything else.
    [Common()] returns the address of an embedded field, so it is never nil
    and the [callCommon == nil] guards of the source are never taken. *)
Inductive Instruction :=
  | Call (c : CallCommon)
  | Defer (c : CallCommon)
  | Go (c : CallCommon)
  | OtherInstr.

(** [ssa.Function]. [Pkg] is the path [fn.Pkg.Pkg.Path()], [None] when
    [fn.Pkg] (or [fn.Pkg.Pkg]) is nil; [String_] is [fn.String()]. *)
Record Function := {
  Pkg : option string;
  Name : string;
  String_ : string;
  Blocks : list (list Instruction)
}.

(** A member of [ssa.Package.Members]: a function, or a constant, global or
    type.  Methods and anonymous functions are not members. *)
Inductive Member :=
  | MFunction (fn : FuncId)
  | MOther.

(** [ssa.Package]; [Members] lists the values of the Go map in the order
    the [range] statement of the run visits them. *)
Record Package := { Members : list Member }.

(** The SSA program handed to the analysis: the heap of functions and the
    packages created from the loaded roots. *)
Record Program := {
  funcs : list Function;
  ssaPkgs : list Package
}.

(** The function an identifier points to.  Go pointers are never dangling;
    an identifier outside the heap reads as a function without package and
    without instructions, so that every definition below is total. *)
Definition noFunction : Function :=
  {| Pkg := None; Name := ""; String_ := ""; Blocks := [] |}.

Definition deref (p : Program) (fn : FuncId) : Function :=
  default noFunction (funcs p !! fn).

Record Counts := {
  cEntries : Z; cExits : Z; cReads : Z; cWrites : Z
}.

Record ProcessReport := {
  PName : string;
  Source : string;
  Entries : Z;
  Exits : Z;
  Reads : Z;
  Writes : Z;
  Funcs : Z
}.

Record Output := {
  TotalEntries : Z;
  TotalExits : Z;
  TotalReads : Z;
  TotalWrites : Z;
  Processes : list ProcessReport
}.

(** ** Rule tables *)

Abbreviation RuleTable := (gmap string (gmap string bool)) (only parsing).

Definition names (l : list string) : gmap string bool :=
  list_to_map ((λ n, (n, true)) <$> l).

Definition entryRegistrations : RuleTable :=
  list_to_map [
    ("net/http"%string, names ["HandleFunc"; "Handle"]%string);
    ("github.com/gorilla/mux"%string, names ["HandleFunc"; "Handle"]%string)
  ].

Definition readFuncs : RuleTable :=
  list_to_map [
    ("os"%string, names ["Open"; "ReadFile"]%string);
    ("io/ioutil"%string, names ["ReadFile"]%string);
    ("database/sql"%string, names ["Query"; "QueryRow"; "Scan"]%string)
  ].

Definition writeFuncs : RuleTable :=
  list_to_map [
    ("os"%string, names ["Create"; "WriteFile"]%string);
    ("io/ioutil"%string, names ["WriteFile"]%string);
    ("database/sql"%string, names ["Exec"]%string)
  ].

Definition exitFuncs : RuleTable :=
  list_to_map [ ("os"%string, names ["Exit"]%string) ].

(** [tbl[p][n]] with the zero value [false] for a missing key, guarded by
    the comma-ok lookup of the package as in the source. *)
Definition tableLookup (tbl : RuleTable) (p n : string) : bool :=
  match tbl !! p with
  | Some set => default false (set !! n)
  | None => false
  end.

(** ** Classification engine *)

(** [strings.HasSuffix]. *)
Definition HasSuffix (s suffix : string) : bool :=
  let n := String.length s in
  let m := String.length suffix in
  (m <=? n)%nat && String.eqb (String.substring (n - m) m s) suffix.

(** [fmt.Sprintf("%s.%s", a, b)]. *)
Definition dotted (a b : string) : string := a +:+ "." +:+ b.

Definition isRegistrationFunction_in (tbl : RuleTable) (fn : Function) : bool :=
  match Pkg fn with
  | None => false
  | Some pkgPath =>
      let name := Name fn in
      if tableLookup tbl pkgPath name then true
      else
        let combined := dotted pkgPath name in
        existsb (λ '(pk, m),
          existsb (λ '(mn, _),
            HasSuffix combined (dotted pk mn) || HasSuffix name mn)
            (map_to_list (m : gmap string bool)))
          (map_to_list tbl)
  end.

Definition isRegistrationFunction : Function → bool :=
  isRegistrationFunction_in entryRegistrations.

Definition nameIn (n : string) (l : list string) : bool :=
  existsb (String.eqb n) l.

Definition matchesRead_in (tbl : RuleTable) (fn : Function) : bool :=
  match Pkg fn with
  | None => false
  | Some p =>
      let n := Name fn in
      if tableLookup tbl p n then true
      else if nameIn n ["Read"; "Scan"; "Query"; "QueryRow"]%string then true
      else false
  end.

Definition matchesRead : Function → bool := matchesRead_in readFuncs.

Definition matchesWrite_in (tbl : RuleTable) (fn : Function) : bool :=
  match Pkg fn with
  | None => false
  | Some p =>
      let n := Name fn in
      if tableLookup tbl p n then true
      else if nameIn n
           ["Write"; "WriteString"; "Encode"; "Respond"; "Print"; "Printf"]%string
      then true
      else false
  end.

Definition matchesWrite : Function → bool := matchesWrite_in writeFuncs.

Definition matchesExit_in (tbl : RuleTable) (fn : Function) : bool :=
  match Pkg fn with
  | None => false
  | Some p =>
      let n := Name fn in
      if tableLookup tbl p n then true
      else if String.eqb p "os" && String.eqb n "Exit" then true
      else false
  end.

Definition matchesExit : Function → bool := matchesExit_in exitFuncs.

(** [extractFunctionFromValue]. *)
Definition extractFunctionFromValue (v : Value) : option FuncId :=
  match v with
  | VNil => None
  | VMakeClosure (VFunction fn) => Some fn
  | VMakeClosure _ => None
  | VFunction vv => Some vv
  | VOther => None
  end.

(** The call description of a call instruction. *)
Definition callCommonOf (ins : Instruction) : option CallCommon :=
  match ins with
  | Call c | Defer c | Go c => Some c
  | OtherInstr => None
  end.

(** The instructions of all blocks, in program order. *)
Definition instrs (fn : Function) : list Instruction := concat (Blocks fn).

(** ** Local counts and entry detection (first loop of [main]) *)

Definition zeroCounts : Counts :=
  {| cEntries := 0; cExits := 0; cReads := 0; cWrites := 0 |}.

Definition incEntries (c : Counts) : Counts :=
  {| cEntries := cEntries c + 1; cExits := cExits c;
     cReads := cReads c; cWrites := cWrites c |}.
Definition incExits (c : Counts) : Counts :=
  {| cEntries := cEntries c; cExits := cExits c + 1;
     cReads := cReads c; cWrites := cWrites c |}.
Definition incReads (c : Counts) : Counts :=
  {| cEntries := cEntries c; cExits := cExits c;
     cReads := cReads c + 1; cWrites := cWrites c |}.
Definition incWrites (c : Counts) : Counts :=
  {| cEntries := cEntries c; cExits := cExits c;
     cReads := cReads c; cWrites := cWrites c + 1 |}.

(** The loop over [callCommon.Args] of a registration call. *)
Definition addHandlers (es : gset FuncId) (args : list Value) : gset FuncId :=
  foldl (λ es arg,
    match extractFunctionFromValue arg with
    | Some hf => {[hf]} ∪ es
    | None => es
    end) es args.

(** The body of the [case *ssa.Call, *ssa.Defer, *ssa.Go] branch. *)
Definition scanCall (p : Program) (st : Counts * gset FuncId) (cc : CallCommon)
  : Counts * gset FuncId :=
  let '(c, es) := st in
  let '(c, es) :=
    match StaticCallee cc with
    | Some sc =>
        if isRegistrationFunction (deref p sc)
        then (incEntries c, addHandlers es (Args cc))
        else (c, es)
    | None => (c, es)
    end in
  match StaticCallee cc with
  | Some sc =>
      let c := if matchesExit (deref p sc) then incExits c else c in
      let c := if matchesRead (deref p sc) then incReads c else c in
      let c := if matchesWrite (deref p sc) then incWrites c else c in
      (c, es)
  | None => (c, es)
  end.

Definition scanInstr (p : Program) (st : Counts * gset FuncId) (ins : Instruction)
  : Counts * gset FuncId :=
  match callCommonOf ins with
  | Some cc => scanCall p st cc
  | None => st
  end.

(** [var c Counts] followed by the loops over [fn.Blocks] and [b.Instrs]. *)
Definition scanFunction (p : Program) (es : gset FuncId) (fn : FuncId)
  : Counts * gset FuncId :=
  foldl (λ st b, foldl (scanInstr p) st b) (zeroCounts, es) (Blocks (deref p fn)).

Definition isMainMain (f : Function) : bool :=
  match Pkg f with
  | Some path => String.eqb path "main" && String.eqb (Name f) "main"
  | None => false
  end.

Definition scanMember (p : Program) (st : gmap FuncId Counts * gset FuncId)
    (mem : Member) : gmap FuncId Counts * gset FuncId :=
  match mem with
  | MFunction fn =>
      let '(localCounts, es) := st in
      let es := if isMainMain (deref p fn) then {[fn]} ∪ es else es in
      let '(c, es) := scanFunction p es fn in
      (<[fn := c]> localCounts, es)
  | MOther => st
  end.

Definition scanProgram (p : Program) : gmap FuncId Counts * gset FuncId :=
  foldl (λ st pkg, foldl (scanMember p) st (Members pkg)) (∅, ∅) (ssaPkgs p).

Definition localCounts (p : Program) : gmap FuncId Counts := (scanProgram p).1.
Definition entryFuncsSet (p : Program) : gset FuncId := (scanProgram p).2.

(** ** Outcomes of a run *)

Inductive Outcome (A : Type) :=
  | Done (a : A)
  | NilDeref      (* panic: nil pointer dereference *)
  | Fatal         (* log.Fatalf *)
  | Diverge.      (* the loop budget of the model ran out *)
Arguments Done {A} a.
Arguments NilDeref {A}.
Arguments Fatal {A}.
Arguments Diverge {A}.

Definition bind {A B} (o : Outcome A) (k : A → Outcome B) : Outcome B :=
  match o with
  | Done a => k a
  | NilDeref => NilDeref
  | Fatal => Fatal
  | Diverge => Diverge
  end.

(** ** Static strategy: [traverseStatic] *)

(** The initial report [ProcessReport{Name: ..., Source: fn.String()}]; the
    name reads [fn.Pkg.Pkg.Path()], which panics when [fn.Pkg] is nil. *)
Definition newReport (f : Function) : Outcome ProcessReport :=
  match Pkg f with
  | Some path =>
      Done {| PName := dotted path (Name f); Source := String_ f;
              Entries := 0; Exits := 0; Reads := 0; Writes := 0; Funcs := 0 |}
  | None => NilDeref
  end.

(** [if lc, ok := localCounts[n]; ok { pr.X += lc.X ... }]. *)
Definition addLocal (lcs : gmap FuncId Counts) (n : FuncId) (pr : ProcessReport)
  : ProcessReport :=
  match lcs !! n with
  | Some lc =>
      {| PName := PName pr; Source := Source pr;
         Entries := Entries pr + cEntries lc; Exits := Exits pr + cExits lc;
         Reads := Reads pr + cReads lc; Writes := Writes pr + cWrites lc;
         Funcs := Funcs pr |}
  | None => pr
  end.

Definition incFuncs (pr : ProcessReport) : ProcessReport :=
  {| PName := PName pr; Source := Source pr;
     Entries := Entries pr; Exits := Exits pr;
     Reads := Reads pr; Writes := Writes pr;
     Funcs := Funcs pr + 1 |}.

(** The [stack] slice is kept with its last element first: the head of the
    list is [stack[len(stack)-1]] and [append] conses. *)
Definition pushCallee (visited : gset FuncId) (stack : list FuncId)
    (ins : Instruction) : list FuncId :=
  match callCommonOf ins with
  | Some cc =>
      match StaticCallee cc with
      | Some sc => if decide (sc ∈ visited) then stack else sc :: stack
      | None => stack
      end
  | None => stack
  end.

Definition pushCallees (p : Program) (visited : gset FuncId)
    (stack : list FuncId) (n : FuncId) : list FuncId :=
  foldl (λ st b, foldl (pushCallee visited) st b) stack (Blocks (deref p n)).

(** The [for len(stack) > 0] loop, with a budget of iterations. *)
Fixpoint staticLoop (p : Program) (lcs : gmap FuncId Counts) (fuel : nat)
    (visited : gset FuncId) (stack : list FuncId) (pr : ProcessReport)
  : Outcome (gset FuncId * ProcessReport) :=
  match fuel with
  | O => Diverge
  | S fuel =>
      match stack with
      | [] => Done (visited, pr)
      | n :: stack =>
          if decide (n ∈ visited) then staticLoop p lcs fuel visited stack pr
          else
            let visited := {[n]} ∪ visited in
            let pr := incFuncs (addLocal lcs n pr) in
            let stack := pushCallees p visited stack n in
            staticLoop p lcs fuel visited stack pr
      end
  end.

(** The static callees of the call instructions of a function, in program
    order. *)
Definition staticCallees (p : Program) (n : FuncId) : list FuncId :=
  omap (λ ins, cc ← callCommonOf ins; StaticCallee cc) (instrs (deref p n)).

(** A budget that the loop never exhausts: one iteration per push. *)
Definition staticBudget (p : Program) : nat :=
  S (S (foldr (λ n acc, length (staticCallees p n) + acc)%nat O
         (seq 0 (length (funcs p))))).

(** [traverseStatic] together with the final [visited] set, which the
    source drops on return. *)
Definition traverseStaticFrom (p : Program) (lcs : gmap FuncId Counts) (fn : FuncId)
  : Outcome (gset FuncId * ProcessReport) :=
  bind (newReport (deref p fn))
       (λ pr, staticLoop p lcs (staticBudget p) ∅ [fn] pr).

Definition traverseStatic (p : Program) (lcs : gmap FuncId Counts) (fn : FuncId)
  : Outcome ProcessReport :=
  bind (traverseStaticFrom p lcs fn) (λ r, Done r.2).

(** ** Whole-program strategy: breadth-first search of the call graph *)

(** [callgraph.Edge], [callgraph.Node] and [callgraph.Graph].  [Nodes] lists
    the values of the Go map [cg.Nodes] in the order the [range] visits
    them; an edge pointer and its [Callee] may be nil. *)
Record Edge := { Callee : option NodeId }.
Record Node := { Func : option FuncId; Out : list (option Edge) }.
Record Graph := { Nodes : list NodeId; nodeHeap : list Node }.

Definition noNode : Node := {| Func := None; Out := [] |}.

Definition derefNode (cg : Graph) (n : NodeId) : Node :=
  default noNode (nodeHeap cg !! n).

(** The result of [pointer.Analyze]. *)
Inductive AnalyzeResult :=
  | AnalyzeOk (cg : Graph)
  | AnalyzeErr.

Definition funcToNode (cg : Graph) : gmap FuncId NodeId :=
  foldl (λ m n,
    match Func (derefNode cg n) with
    | Some f => <[f := n]> m
    | None => m
    end) ∅ (Nodes cg).

(** [if n.Func != nil { ...; pr.Funcs++ }]. *)
Definition visitNode (cg : Graph) (lcs : gmap FuncId Counts) (n : NodeId)
    (pr : ProcessReport) : ProcessReport :=
  match Func (derefNode cg n) with
  | Some f => incFuncs (addLocal lcs f pr)
  | None => pr
  end.

Definition enqueueCallee (visited : gset NodeId) (queue : list NodeId)
    (e : option Edge) : list NodeId :=
  match e with
  | Some e =>
      match Callee e with
      | Some callee =>
          if decide (callee ∈ visited) then queue else queue ++ [callee]
      | None => queue
      end
  | None => queue
  end.

Definition enqueueCallees (cg : Graph) (visited : gset NodeId)
    (queue : list NodeId) (n : NodeId) : list NodeId :=
  foldl (enqueueCallee visited) queue (Out (derefNode cg n)).

(** The [for len(queue) > 0] loop, with a budget of iterations. *)
Fixpoint bfsLoop (cg : Graph) (lcs : gmap FuncId Counts) (fuel : nat)
    (visited : gset NodeId) (queue : list NodeId) (pr : ProcessReport)
  : Outcome (gset NodeId * ProcessReport) :=
  match fuel with
  | O => Diverge
  | S fuel =>
      match queue with
      | [] => Done (visited, pr)
      | n :: queue =>
          if decide (n ∈ visited) then bfsLoop cg lcs fuel visited queue pr
          else
            let visited := {[n]} ∪ visited in
            let pr := visitNode cg lcs n pr in
            let queue := enqueueCallees cg visited queue n in
            bfsLoop cg lcs fuel visited queue pr
      end
  end.

Definition outCallees (cg : Graph) (n : NodeId) : list NodeId :=
  omap (λ e : option Edge, e ← e; Callee e) (Out (derefNode cg n)).

Definition bfsBudget (cg : Graph) : nat :=
  S (S (foldr (λ n acc, length (outCallees cg n) + acc)%nat O
         (seq 0 (length (nodeHeap cg))))).

(** The breadth-first search of pointer mode from the node of an entry,
    together with the final [visited] set. *)
Definition traverseGraphFrom (p : Program) (cg : Graph)
    (lcs : gmap FuncId Counts) (fn : FuncId) (node : NodeId)
  : Outcome (gset NodeId * ProcessReport) :=
  bind (newReport (deref p fn))
       (λ pr, bfsLoop cg lcs (bfsBudget cg) ∅ [node] pr).

(** One iteration of [for fn := range entryFuncsSet] in pointer mode. *)
Definition processPtr (p : Program) (cg : Graph) (lcs : gmap FuncId Counts)
    (fn : FuncId) : Outcome ProcessReport :=
  match funcToNode cg !! fn with
  | None => traverseStatic p lcs fn
  | Some node => bind (traverseGraphFrom p cg lcs fn node) (λ r, Done r.2)
  end.

(** ** Aggregation and the whole run *)

Definition emptyOutput : Output :=
  {| TotalEntries := 0; TotalExits := 0; TotalReads := 0; TotalWrites := 0;
     Processes := [] |}.

Definition addReport (out : Output) (pr : ProcessReport) : Output :=
  {| TotalEntries := TotalEntries out + Entries pr;
     TotalExits := TotalExits out + Exits pr;
     TotalReads := TotalReads out + Reads pr;
     TotalWrites := TotalWrites out + Writes pr;
     Processes := Processes out ++ [pr] |}.

Fixpoint aggregate (process : FuncId → Outcome ProcessReport)
    (order : list FuncId) (out : Output) : Outcome Output :=
  match order with
  | [] => Done out
  | fn :: order =>
      bind (process fn) (λ pr, aggregate process order (addReport out pr))
  end.

(** The analysis from the SSA program to the [Output] that is encoded.
    [order] is the order in which [range entryFuncsSet] yields the entries;
    [analysis] is what [pointer.Analyze] returns when it is called. *)
Definition RunWith (p : Program) (ptrMode : bool) (analysis : AnalyzeResult)
    (order : list FuncId) : Outcome Output :=
  let lcs := localCounts p in
  if ptrMode then
    match analysis with
    | AnalyzeErr => Fatal
    | AnalyzeOk cg => aggregate (processPtr p cg lcs) order emptyOutput
    end
  else aggregate (traverseStatic p lcs) order emptyOutput.

(** The orders a [range] over the entry set can take. *)
Definition entryOrder (p : Program) (order : list FuncId) : Prop :=
  order ≡ₚ elements (entryFuncsSet p).

(** [Runs p ptrMode analysis r]: some execution of the analysis ends in [r]. *)
Definition Runs (p : Program) (ptrMode : bool) (analysis : AnalyzeResult)
    (r : Outcome Output) : Prop :=
  ∃ order, entryOrder p order ∧ RunWith p ptrMode analysis order = r.

(** * Properties *)

(** ** Worklist traversals

    Both traversal loops pop a candidate, skip it when it is already
    visited, and otherwise mark it, account for it and add its unvisited
    successors to the worklist.  The section proves, for any such loop,
    that the budget is never exhausted and that the loop visits exactly the
    candidates reachable from the root, each one once. *)
Section Worklist.
Context {A : Type}.
Variable succs : nat → list nat.
Variable expand : gset nat → list nat → nat → list nat.
Variable visit : nat → A → A.
Variable universe : list nat.

Hypothesis expand_elem : ∀ V W n x,
    x ∈ expand V W n ↔ x ∈ W ∨ (x ∈ succs n ∧ x ∉ V).
Hypothesis expand_length : ∀ V W n,
    (length (expand V W n) ≤ length W + length (succs n))%nat.
Hypothesis universe_NoDup : NoDup universe.
Hypothesis succs_universe : ∀ n, n ∉ universe → succs n = [].

Fixpoint worklist (fuel : nat) (V : gset nat) (W : list nat) (acc : A)
    : Outcome (gset nat * A) :=
    match fuel with
    | O => Diverge
    | S fuel =>
        match W with
        | [] => Done (V, acc)
        | n :: W =>
            if decide (n ∈ V) then worklist fuel V W acc
            else worklist fuel ({[n]} ∪ V) (expand ({[n]} ∪ V) W n) (visit n acc)
        end
    end.

Definition edge (a b : nat) : Prop := b ∈ succs a.

(** Pushes still to come: the successors of the unvisited candidates. *)
Definition pendingIn (l : list nat) (V : gset nat) : nat :=
    foldr (λ n acc, (if decide (n ∈ V) then O else length (succs n)) + acc)%nat O l.

Lemma pendingIn_mono l V n : (pendingIn l ({[n]} ∪ V) ≤ pendingIn l V)%nat.
  Proof.
    induction l as [|u l IH]; simpl; [lia|].
    destruct (decide (u ∈ {[n]} ∪ V)) as [Hin|Hin];
      destruct (decide (u ∈ V)) as [Hv|Hv]; try lia.
    exfalso. apply Hin. set_solver.
  Qed.

Lemma pendingIn_insert l V n :
    NoDup l → n ∈ l ∨ succs n = [] → n ∉ V →
    (pendingIn l ({[n]} ∪ V) + length (succs n) ≤ pendingIn l V)%nat.
  Proof.
    induction l as [|u l IH]; intros Hnd Hn HV; simpl.
    - destruct Hn as [Hn|Hn]; [by apply elem_of_nil in Hn|]. rewrite Hn. simpl. lia.
    - apply NoDup_cons in Hnd as [Hu Hnd].
      destruct (decide (u = n)) as [->|Hne].
      + rewrite decide_True by set_solver. rewrite decide_False by done.
        pose proof (pendingIn_mono l V n). lia.
      + assert (Hl : n ∈ l ∨ succs n = []).
        { destruct Hn as [Hn|Hn]; [|by right].
          apply elem_of_cons in Hn as [Hn|Hn]; [congruence|by left]. }
        specialize (IH Hnd Hl HV).
        destruct (decide (u ∈ {[n]} ∪ V)) as [Hin|Hin];
          destruct (decide (u ∈ V)) as [Hv|Hv]; try lia.
        exfalso. set_solver.
  Qed.

Definition budget : nat :=
    S (S (foldr (λ n acc, length (succs n) + acc)%nat O universe)).

Lemma pendingIn_empty l :
    pendingIn l ∅ = foldr (λ n acc, length (succs n) + acc)%nat O l.
  Proof.
    induction l as [|u l IH]; simpl; [done|].
    rewrite decide_False by set_solver. by rewrite IH.
  Qed.

(** The loop invariant, stated on the result of a run that starts in an
    arbitrary state with enough budget. *)
Lemma worklist_run fuel : ∀ V W acc,
    (length W + pendingIn universe V < fuel)%nat →
    ∃ order,
      worklist fuel V W acc
        = Done (list_to_set order ∪ V, foldl (λ a n, visit n a) acc order)
      ∧ NoDup order
      ∧ (∀ x, x ∈ order → x ∉ V)
      ∧ (∀ x, x ∈ order → ∃ w, w ∈ W ∧ rtc edge w x)
      ∧ (∀ w, w ∈ W → w ∈ (list_to_set order ∪ V : gset nat))
      ∧ ((∀ a b, a ∈ V → edge a b → b ∈ V ∨ b ∈ W) →
         ∀ a b, a ∈ (list_to_set order ∪ V : gset nat) → edge a b →
                b ∈ (list_to_set order ∪ V : gset nat)).
  Proof.
    induction fuel as [|fuel IH]; intros V W acc Hfuel; [lia|].
    destruct W as [|n W]; simpl.
    - exists []. simpl. split_and!; try done.
      + f_equal. f_equal. set_solver.
      + constructor.
      + intros x Hx. by apply elem_of_nil in Hx.
      + intros x Hx. by apply elem_of_nil in Hx.
      + intros w Hw. by apply elem_of_nil in Hw.
      + intros Hcl a b Ha Hab.
        assert (a ∈ V) as HaV by set_solver.
        destruct (Hcl a b HaV Hab) as [?|Hb]; [set_solver|by apply elem_of_nil in Hb].
    - destruct (decide (n ∈ V)) as [HnV|HnV].
      + destruct (IH V W acc) as (order & Hrun & Hnd & Hdisj & Hsound & HW & Hclosed).
        { simpl in Hfuel. lia. }
        exists order. split_and!; try done.
        * intros x Hx. destruct (Hsound x Hx) as (w & Hw & Hr).
          exists w. split; [by apply elem_of_cons; right|done].
        * intros w Hw. apply elem_of_cons in Hw as [->|Hw]; [set_solver|by apply HW].
        * intros Hcl. apply Hclosed. intros a b Ha Hab.
          destruct (Hcl a b Ha Hab) as [?|Hb]; [by left|].
          apply elem_of_cons in Hb as [->|Hb]; [by left|by right].
      + destruct (IH ({[n]} ∪ V) (expand ({[n]} ∪ V) W n) (visit n acc))
          as (order & Hrun & Hnd & Hdisj & Hsound & HW & Hclosed).
        { simpl in Hfuel.
          pose proof (expand_length ({[n]} ∪ V) W n).
          assert (n ∈ universe ∨ succs n = []) as Hn.
          { destruct (decide (n ∈ universe)); [by left|right; by apply succs_universe]. }
          pose proof (pendingIn_insert universe V n universe_NoDup Hn HnV). lia. }
        assert (Heq : (list_to_set order ∪ ({[n]} ∪ V) : gset nat)
                      = list_to_set (n :: order) ∪ V).
        { simpl. set_solver. }
        exists (n :: order). split_and!.
        * rewrite Hrun. simpl. by rewrite Heq.
        * apply NoDup_cons. split; [|done]. intros Hin.
          apply (Hdisj n Hin). set_solver.
        * intros x Hx. apply elem_of_cons in Hx as [->|Hx]; [done|].
          specialize (Hdisj x Hx). set_solver.
        * intros x Hx. apply elem_of_cons in Hx as [->|Hx].
          { exists n. split; [by apply elem_of_cons; left|done]. }
          destruct (Hsound x Hx) as (w & Hw & Hr).
          apply expand_elem in Hw as [Hw|[Hw _]].
          -- exists w. split; [by apply elem_of_cons; right|done].
          -- exists n. split; [by apply elem_of_cons; left|].
             by eapply rtc_l; [exact Hw|].
        * rewrite <- Heq. intros w Hw.
          apply elem_of_cons in Hw as [->|Hw]; [set_solver|].
          apply HW. apply expand_elem. by left.
        * rewrite <- Heq. intros Hcl. apply Hclosed. intros a b Ha Hab.
          destruct (decide (b ∈ ({[n]} ∪ V : gset nat))) as [Hb|Hb]; [by left|].
          right. apply expand_elem.
          apply elem_of_union in Ha as [Ha|Ha].
          -- apply elem_of_singleton in Ha as ->. by right.
          -- destruct (Hcl a b Ha Hab) as [HbV|HbW]; [set_solver|].
             apply elem_of_cons in HbW as [->|HbW]; [set_solver|by left].
  Qed.

(** A traversal from a root with the budget of the model terminates, and
    visits, once each and in some order, exactly the candidates reachable
    from the root. *)
Lemma worklist_root root acc :
    ∃ order,
      worklist budget ∅ [root] acc
        = Done (list_to_set order, foldl (λ a n, visit n a) acc order)
      ∧ NoDup order
      ∧ (∀ x, x ∈ order ↔ rtc edge root x).
  Proof.
    destruct (worklist_run budget ∅ [root] acc)
      as (order & Hrun & Hnd & _ & Hsound & HW & Hclosed).
    { rewrite pendingIn_empty. unfold budget. simpl. lia. }
    exists order. split_and!; [|done|].
    - rewrite Hrun. f_equal. f_equal. set_solver.
    - intros x. split.
      + intros Hx. destruct (Hsound x Hx) as (w & Hw & Hr).
        apply list_elem_of_singleton in Hw as ->. done.
      + intros Hr.
        assert (Hall : ∀ y, rtc edge root y → y ∈ (list_to_set order ∪ ∅ : gset nat)).
        { apply (rtc_ind_r (λ y, y ∈ (list_to_set order ∪ ∅ : gset nat))).
          - apply HW. by apply list_elem_of_singleton.
          - intros y z _ Hyz IHy. eapply Hclosed; [|exact IHy|done]. set_solver. }
        specialize (Hall x Hr). set_solver.
  Qed.
End Worklist.

(** ** Sums over visited sets *)

Definition sumList (w : nat → Z) (l : list nat) : Z :=
  foldr (λ n acc, w n + acc) 0 l.

(** The sum of [w] over the members of a finite set, each taken once. *)
Definition sumOver (w : nat → Z) (X : gset nat) : Z := sumList w (elements X).

Lemma sumList_perm w l k : l ≡ₚ k → sumList w l = sumList w k.
Proof.
  induction 1 as [|x l k _ IH|x y l|l k m _ IH1 _ IH2]; simpl; lia.
Qed.

Lemma sumList_app w l k : sumList w (l ++ k) = sumList w l + sumList w k.
Proof. induction l as [|x l IH]; simpl; lia. Qed.

Lemma sumList_nonneg w l : (∀ n, 0 ≤ w n) → 0 ≤ sumList w l.
Proof. intros Hw. induction l as [|x l IH]; simpl; [lia|]. specialize (Hw x). lia. Qed.


Lemma sumList_one l : sumList (λ _, 1) l = Z.of_nat (length l).
Proof. induction l as [|x l IH]; simpl; lia. Qed.

Lemma sumOver_list w l : NoDup l → sumOver w (list_to_set l) = sumList w l.
Proof. intros Hnd. apply sumList_perm. by apply elements_list_to_set. Qed.

Lemma size_list_to_set_NoDup (l : list nat) :
  NoDup l → size (list_to_set l : gset nat) = length l.
Proof. intros Hnd. unfold size, set_size. simpl. by rewrite elements_list_to_set. Qed.

(** The local count a traversal adds for a function: its entry of
    [localCounts], or nothing when it has none. *)
Definition countsAt (lcs : gmap FuncId Counts) (n : FuncId) : Counts :=
  default zeroCounts (lcs !! n).

(** Adding [c] to the four metrics and [k] to the function counter. *)
Definition bump (c : Counts) (k : Z) (pr : ProcessReport) : ProcessReport :=
  {| PName := PName pr; Source := Source pr;
     Entries := Entries pr + cEntries c; Exits := Exits pr + cExits c;
     Reads := Reads pr + cReads c; Writes := Writes pr + cWrites c;
     Funcs := Funcs pr + k |}.

Lemma report_eq (a b : ProcessReport) :
  PName a = PName b → Source a = Source b → Entries a = Entries b →
  Exits a = Exits b → Reads a = Reads b → Writes a = Writes b →
  Funcs a = Funcs b → a = b.
Proof. destruct a, b; simpl; intros; by subst. Qed.

Lemma visit_static_bump lcs n pr :
  incFuncs (addLocal lcs n pr) = bump (countsAt lcs n) 1 pr.
Proof.
  unfold addLocal, countsAt. destruct (lcs !! n) as [c|]; simpl;
    apply report_eq; simpl; lia || done.
Qed.

Definition nodeCounts (cg : Graph) (lcs : gmap FuncId Counts) (n : NodeId) : Counts :=
  match Func (derefNode cg n) with
  | Some f => countsAt lcs f
  | None => zeroCounts
  end.

Definition nodeFuncs (cg : Graph) (n : NodeId) : Z :=
  match Func (derefNode cg n) with Some _ => 1 | None => 0 end.

Lemma visitNode_bump cg lcs n pr :
  visitNode cg lcs n pr = bump (nodeCounts cg lcs n) (nodeFuncs cg n) pr.
Proof.
  unfold visitNode, nodeCounts, nodeFuncs.
  destruct (Func (derefNode cg n)) as [f|].
  - apply visit_static_bump.
  - apply report_eq; simpl; lia || done.
Qed.

Lemma foldl_bump (c : nat → Counts) (k : nat → Z) order : ∀ pr,
  let pr' := foldl (λ a n, bump (c n) (k n) a) pr order in
  PName pr' = PName pr ∧ Source pr' = Source pr
  ∧ Entries pr' = Entries pr + sumList (λ n, cEntries (c n)) order
  ∧ Exits pr' = Exits pr + sumList (λ n, cExits (c n)) order
  ∧ Reads pr' = Reads pr + sumList (λ n, cReads (c n)) order
  ∧ Writes pr' = Writes pr + sumList (λ n, cWrites (c n)) order
  ∧ Funcs pr' = Funcs pr + sumList k order.
Proof.
  induction order as [|n order IH]; intros pr; simpl.
  - split_and!; lia || done.
  - destruct (IH (bump (c n) (k n) pr)) as (H1 & H2 & H3 & H4 & H5 & H6 & H7).
    simpl in *. split_and!; lia || done.
Qed.

(** ** The static traversal is a worklist traversal *)

Lemma foldl_blocks {S I} (f : S → I → S) (bs : list (list I)) : ∀ s,
  foldl (λ st b, foldl f st b) s bs = foldl f s (concat bs).
Proof.
  induction bs as [|b bs IH]; intros s; simpl; [done|].
  by rewrite IH, foldl_app.
Qed.

Definition calleeOf (ins : Instruction) : option FuncId :=
  cc ← callCommonOf ins; StaticCallee cc.

Lemma pushCallee_elem V l : ∀ W x,
  x ∈ foldl (pushCallee V) W l ↔ x ∈ W ∨ (x ∈ omap calleeOf l ∧ x ∉ V).
Proof.
  induction l as [|ins l IH]; intros W x; simpl.
  - split; [by left|]. intros [?|[H _]]; [done|by apply elem_of_nil in H].
  - rewrite IH. unfold pushCallee, calleeOf at 2.
    destruct (callCommonOf ins) as [cc|]; simpl; [|tauto].
    destruct (StaticCallee cc) as [sc|]; simpl; [|tauto].
    destruct (decide (sc ∈ V)) as [HV|HV]; rewrite ?elem_of_cons.
    + split; [tauto|]. intros [?|[[->|?] ?]]; tauto.
    + split; [|tauto]. intros [[->|?]|?]; tauto.
Qed.

Lemma pushCallee_length V l : ∀ W,
  (length (foldl (pushCallee V) W l) ≤ length W + length (omap calleeOf l))%nat.
Proof.
  induction l as [|ins l IH]; intros W; cbn; [lia|].
  etrans; [apply IH|].
  destruct ins as [[[sc|] args]|[[sc|] args]|[[sc|] args]|];
    unfold pushCallee; cbn; try case_decide; cbn; lia.
Qed.

Lemma pushCallees_elem p V W n x :
  x ∈ pushCallees p V W n ↔ x ∈ W ∨ (x ∈ staticCallees p n ∧ x ∉ V).
Proof. unfold pushCallees. rewrite foldl_blocks. apply pushCallee_elem. Qed.

Lemma pushCallees_length p V W n :
  (length (pushCallees p V W n) ≤ length W + length (staticCallees p n))%nat.
Proof. unfold pushCallees. rewrite foldl_blocks. apply pushCallee_length. Qed.

Lemma staticCallees_outside p n :
  n ∉ seq 0 (length (funcs p)) → staticCallees p n = [].
Proof.
  intros Hn. unfold staticCallees, instrs, deref.
  rewrite (lookup_ge_None_2 (funcs p) n); [done|].
  destruct (decide (n < length (funcs p))%nat) as [Hlt|]; [|lia].
  exfalso. apply Hn. apply elem_of_seq. lia.
Qed.

Lemma staticLoop_worklist p lcs fuel : ∀ visited stack pr,
  staticLoop p lcs fuel visited stack pr
  = worklist (pushCallees p) (λ n a, bump (countsAt lcs n) 1 a)
      fuel visited stack pr.
Proof.
  induction fuel as [|fuel IH]; intros visited stack pr; simpl; [done|].
  destruct stack as [|n stack]; [done|].
  destruct (decide (n ∈ visited)); rewrite ?visit_static_bump; by rewrite IH.
Qed.

(** A static call edge: [g] is the static callee of a call instruction of [f]. *)
Definition staticEdge (p : Program) (f g : FuncId) : Prop :=
  g ∈ staticCallees p f.

(** The functions reachable from [f] over static call edges. *)
Definition staticReach (p : Program) (f g : FuncId) : Prop :=
  rtc (staticEdge p) f g.

Lemma staticLoop_root p lcs fn pr :
  ∃ order,
    staticLoop p lcs (staticBudget p) ∅ [fn] pr
      = Done (list_to_set order, foldl (λ a n, bump (countsAt lcs n) 1 a) pr order)
    ∧ NoDup order
    ∧ (∀ g, g ∈ order ↔ staticReach p fn g).
Proof.
  rewrite staticLoop_worklist.
  destruct (worklist_root (staticCallees p) (pushCallees p)
              (λ n a, bump (countsAt lcs n) 1 a) (seq 0 (length (funcs p)))
              (pushCallees_elem p) (pushCallees_length p)
              (NoDup_seq _ _) (staticCallees_outside p) fn pr)
    as (order & Hrun & Hnd & Hreach).
  exists order. split_and!; done.
Qed.

(** ** The graph traversal is a worklist traversal *)

Definition edgeCallee (e : option Edge) : option NodeId := e ← e; Callee e.

Lemma enqueueCallee_elem V l : ∀ W x,
  x ∈ foldl (enqueueCallee V) W l ↔ x ∈ W ∨ (x ∈ omap edgeCallee l ∧ x ∉ V).
Proof.
  induction l as [|e l IH]; intros W x; cbn.
  - split; [by left|]. intros [?|[H _]]; [done|by apply elem_of_nil in H].
  - rewrite IH.
    destruct e as [[[callee|]]|]; unfold enqueueCallee; cbn; [|tauto|tauto].
    destruct (decide (callee ∈ V)) as [HV|HV];
      rewrite ?elem_of_app, ?list_elem_of_singleton, ?elem_of_cons.
    + split; [tauto|]. intros [?|[[->|?] ?]]; tauto.
    + split; [|tauto]. intros [[? | ->] | ?]; tauto.
Qed.

Lemma enqueueCallee_length V l : ∀ W,
  (length (foldl (enqueueCallee V) W l) ≤ length W + length (omap edgeCallee l))%nat.
Proof.
  induction l as [|e l IH]; intros W; cbn; [lia|].
  etrans; [apply IH|].
  destruct e as [[[callee|]]|]; unfold enqueueCallee; cbn;
    try case_decide; rewrite ?length_app; cbn; lia.
Qed.

Lemma enqueueCallees_elem cg V W n x :
  x ∈ enqueueCallees cg V W n ↔ x ∈ W ∨ (x ∈ outCallees cg n ∧ x ∉ V).
Proof. apply enqueueCallee_elem. Qed.

Lemma enqueueCallees_length cg V W n :
  (length (enqueueCallees cg V W n) ≤ length W + length (outCallees cg n))%nat.
Proof. apply enqueueCallee_length. Qed.

Lemma outCallees_outside cg n :
  n ∉ seq 0 (length (nodeHeap cg)) → outCallees cg n = [].
Proof.
  intros Hn. unfold outCallees, derefNode.
  rewrite (lookup_ge_None_2 (nodeHeap cg) n); [done|].
  destruct (decide (n < length (nodeHeap cg))%nat) as [Hlt|]; [|lia].
  exfalso. apply Hn. apply elem_of_seq. lia.
Qed.

Lemma bfsLoop_worklist cg lcs fuel : ∀ visited queue pr,
  bfsLoop cg lcs fuel visited queue pr
  = worklist (enqueueCallees cg)
      (λ n a, bump (nodeCounts cg lcs n) (nodeFuncs cg n) a)
      fuel visited queue pr.
Proof.
  induction fuel as [|fuel IH]; intros visited queue pr; simpl; [done|].
  destruct queue as [|n queue]; [done|].
  destruct (decide (n ∈ visited)); rewrite ?visitNode_bump; by rewrite IH.
Qed.

(** A call-graph edge: some out-edge of [n] has callee [m]. *)
Definition cgEdge (cg : Graph) (n m : NodeId) : Prop := m ∈ outCallees cg n.

Definition cgReach (cg : Graph) (n m : NodeId) : Prop := rtc (cgEdge cg) n m.

Lemma bfsLoop_root cg lcs node pr :
  ∃ order,
    bfsLoop cg lcs (bfsBudget cg) ∅ [node] pr
      = Done (list_to_set order,
              foldl (λ a n, bump (nodeCounts cg lcs n) (nodeFuncs cg n) a) pr order)
    ∧ NoDup order
    ∧ (∀ m, m ∈ order ↔ cgReach cg node m).
Proof.
  rewrite bfsLoop_worklist.
  destruct (worklist_root (outCallees cg) (enqueueCallees cg)
              (λ n a, bump (nodeCounts cg lcs n) (nodeFuncs cg n) a)
              (seq 0 (length (nodeHeap cg)))
              (enqueueCallees_elem cg) (enqueueCallees_length cg)
              (NoDup_seq _ _) (outCallees_outside cg) node pr)
    as (order & Hrun & Hnd & Hreach).
  exists order. split_and!; done.
Qed.

(** ** What a traversal returns *)

(** [pr] carries the sums of [c] and [k] over the set [X]. *)
Definition sumsOver (c : nat → Counts) (k : nat → Z) (X : gset nat)
    (pr : ProcessReport) : Prop :=
  Entries pr = sumOver (λ n, cEntries (c n)) X
  ∧ Exits pr = sumOver (λ n, cExits (c n)) X
  ∧ Reads pr = sumOver (λ n, cReads (c n)) X
  ∧ Writes pr = sumOver (λ n, cWrites (c n)) X
  ∧ Funcs pr = sumOver k X.

Lemma newReport_Some f path :
  Pkg f = Some path →
  newReport f = Done {| PName := dotted path (Name f); Source := String_ f;
                        Entries := 0; Exits := 0; Reads := 0; Writes := 0;
                        Funcs := 0 |}.
Proof. unfold newReport. by intros ->. Qed.

Lemma foldl_bump_sums c k order pr0 :
  NoDup order →
  Entries pr0 = 0 → Exits pr0 = 0 → Reads pr0 = 0 → Writes pr0 = 0 →
  Funcs pr0 = 0 →
  sumsOver c k (list_to_set order) (foldl (λ a n, bump (c n) (k n) a) pr0 order).
Proof.
  intros Hnd H1 H2 H3 H4 H5.
  destruct (foldl_bump c k order pr0) as (_ & _ & E1 & E2 & E3 & E4 & E5).
  unfold sumsOver. rewrite !sumOver_list by done.
  simpl in *. split_and!; lia.
Qed.

(** The static traversal from an entry with a package returns, and its
    report sums the local counts over the set of functions reachable over
    static call edges. *)
Lemma traverseStaticFrom_spec p lcs fn path :
  Pkg (deref p fn) = Some path →
  ∃ reach pr,
    traverseStaticFrom p lcs fn = Done (reach, pr)
    ∧ (∀ g, g ∈ reach ↔ staticReach p fn g)
    ∧ PName pr = dotted path (Name (deref p fn))
    ∧ Source pr = String_ (deref p fn)
    ∧ sumsOver (countsAt lcs) (λ _, 1) reach pr.
Proof.
  intros Hpkg. unfold traverseStaticFrom. rewrite (newReport_Some _ _ Hpkg). simpl.
  destruct (staticLoop_root p lcs fn
    {| PName := dotted path (Name (deref p fn)); Source := String_ (deref p fn);
       Entries := 0; Exits := 0; Reads := 0; Writes := 0; Funcs := 0 |})
    as (order & Hrun & Hnd & Hreach).
  eexists _, _. split; [exact Hrun|].
  split; [intros g; rewrite elem_of_list_to_set; apply Hreach|].
  destruct (foldl_bump (countsAt lcs) (λ _, 1) order
    {| PName := dotted path (Name (deref p fn)); Source := String_ (deref p fn);
       Entries := 0; Exits := 0; Reads := 0; Writes := 0; Funcs := 0 |})
    as (E1 & E2 & _).
  split; [exact E1|]. split; [exact E2|].
  by apply foldl_bump_sums.
Qed.

Lemma traverseStatic_nil p lcs fn :
  Pkg (deref p fn) = None → traverseStatic p lcs fn = NilDeref.
Proof.
  intros H. unfold traverseStatic, traverseStaticFrom, newReport. by rewrite H.
Qed.

(** The same for the breadth-first search from a node of the call graph:
    the sums range over the set of nodes reachable over call-graph edges. *)
Lemma traverseGraphFrom_spec p cg lcs fn node path :
  Pkg (deref p fn) = Some path →
  ∃ reach pr,
    traverseGraphFrom p cg lcs fn node = Done (reach, pr)
    ∧ (∀ m, m ∈ reach ↔ cgReach cg node m)
    ∧ PName pr = dotted path (Name (deref p fn))
    ∧ Source pr = String_ (deref p fn)
    ∧ sumsOver (nodeCounts cg lcs) (nodeFuncs cg) reach pr.
Proof.
  intros Hpkg. unfold traverseGraphFrom. rewrite (newReport_Some _ _ Hpkg). simpl.
  destruct (bfsLoop_root cg lcs node
    {| PName := dotted path (Name (deref p fn)); Source := String_ (deref p fn);
       Entries := 0; Exits := 0; Reads := 0; Writes := 0; Funcs := 0 |})
    as (order & Hrun & Hnd & Hreach).
  eexists _, _. split; [exact Hrun|].
  split; [intros g; rewrite elem_of_list_to_set; apply Hreach|].
  destruct (foldl_bump (nodeCounts cg lcs) (nodeFuncs cg) order
    {| PName := dotted path (Name (deref p fn)); Source := String_ (deref p fn);
       Entries := 0; Exits := 0; Reads := 0; Writes := 0; Funcs := 0 |})
    as (E1 & E2 & _).
  split; [exact E1|]. split; [exact E2|].
  by apply foldl_bump_sums.
Qed.

Lemma sumOver_one (X : gset nat) : sumOver (λ _, 1) X = Z.of_nat (size X).
Proof. unfold sumOver. by rewrite sumList_one. Qed.

(** ** What the scan of the program computes *)

Definition memberFn (m : Member) : option FuncId :=
  match m with MFunction fn => Some fn | MOther => None end.

(** The functions that are members of a created package. *)
Definition memberFuncs (p : Program) : list FuncId :=
  omap memberFn (concat (Members <$> ssaPkgs p)).

Definition isRegistrationCall (p : Program) (cc : CallCommon) : bool :=
  match StaticCallee cc with
  | Some sc => isRegistrationFunction (deref p sc)
  | None => false
  end.

(** The counting half of [scanCall]. *)
Definition countCall (p : Program) (c : Counts) (cc : CallCommon) : Counts :=
  (scanCall p (c, ∅) cc).1.

(** The handlers a call site adds to the entry set. *)
Definition handlersOfCall (p : Program) (cc : CallCommon) : list FuncId :=
  if isRegistrationCall p cc then omap extractFunctionFromValue (Args cc) else [].

Definition countInstr (p : Program) (c : Counts) (ins : Instruction) : Counts :=
  match callCommonOf ins with Some cc => countCall p c cc | None => c end.

Definition handlersOfInstr (p : Program) (ins : Instruction) : list FuncId :=
  match callCommonOf ins with Some cc => handlersOfCall p cc | None => [] end.

(** The local count of a function: the scan of its own instructions. *)
Definition scanCounts (p : Program) (fn : FuncId) : Counts :=
  foldl (countInstr p) zeroCounts (instrs (deref p fn)).

Definition handlersOf (p : Program) (fn : FuncId) : list FuncId :=
  instrs (deref p fn) ≫= handlersOfInstr p.

Arguments scanCall : simpl never.
Arguments scanFunction : simpl never.
Arguments scanCounts : simpl never.
Arguments handlersOf : simpl never.
Arguments countCall : simpl never.

Lemma addHandlers_spec args : ∀ es,
  addHandlers es args = es ∪ list_to_set (omap extractFunctionFromValue args).
Proof.
  unfold addHandlers.
  induction args as [|a args IH]; intros es; cbn; [set_solver|].
  rewrite IH. destruct (extractFunctionFromValue a); cbn; set_solver.
Qed.

Lemma scanCall_spec p c es cc :
  scanCall p (c, es) cc = (countCall p c cc, es ∪ list_to_set (handlersOfCall p cc)).
Proof.
  unfold countCall, handlersOfCall, isRegistrationCall, scanCall.
  destruct (StaticCallee cc) as [sc|]; simpl; [|f_equal; set_solver].
  destruct (isRegistrationFunction (deref p sc)); simpl.
  - rewrite addHandlers_spec. done.
  - f_equal. set_solver.
Qed.

Lemma scanInstr_spec p c es ins :
  scanInstr p (c, es) ins
  = (countInstr p c ins, es ∪ list_to_set (handlersOfInstr p ins)).
Proof.
  unfold scanInstr, countInstr, handlersOfInstr.
  destruct (callCommonOf ins) as [cc|]; [apply scanCall_spec|].
  f_equal. set_solver.
Qed.

Lemma scanInstrs_spec p l : ∀ c es,
  foldl (scanInstr p) (c, es) l
  = (foldl (countInstr p) c l, es ∪ list_to_set (l ≫= handlersOfInstr p)).
Proof.
  induction l as [|ins l IH]; intros c es.
  - cbn. f_equal. set_solver.
  - change (foldl (scanInstr p) (c, es) (ins :: l))
      with (foldl (scanInstr p) (scanInstr p (c, es) ins) l).
    change (foldl (countInstr p) c (ins :: l))
      with (foldl (countInstr p) (countInstr p c ins) l).
    rewrite scanInstr_spec, IH, bind_cons, list_to_set_app_L.
    f_equal. set_solver.
Qed.

Lemma scanFunction_spec p es fn :
  scanFunction p es fn = (scanCounts p fn, es ∪ list_to_set (handlersOf p fn)).
Proof.
  unfold scanFunction. rewrite foldl_blocks. apply scanInstrs_spec.
Qed.

(** The entries that the scan of one member function adds. *)
Definition entriesOfMember (p : Program) (g x : FuncId) : Prop :=
  (x = g ∧ isMainMain (deref p g) = true) ∨ x ∈ handlersOf p g.

Lemma scanMembers_spec p ms : ∀ lcs0 es0,
  let r := foldl (scanMember p) (lcs0, es0) ms in
  (∀ f, r.1 !! f = if decide (f ∈ omap memberFn ms)
                   then Some (scanCounts p f) else lcs0 !! f)
  ∧ (∀ x, x ∈ r.2 ↔
          x ∈ es0 ∨ ∃ g, g ∈ omap memberFn ms ∧ entriesOfMember p g x).
Proof.
  induction ms as [|m ms IH]; intros lcs0 es0; cbn.
  - split.
    + intros f. rewrite decide_False; [done|]. apply not_elem_of_nil.
    + intros x. split; [by left|].
      intros [?|(g & Hg & _)]; [done|]. by apply elem_of_nil in Hg.
  - destruct m as [fn|]; cbn; [|apply IH].
    rewrite scanFunction_spec.
    destruct (IH (<[fn := scanCounts p fn]> lcs0)
                 ((if isMainMain (deref p fn) then {[fn]} ∪ es0 else es0)
                    ∪ list_to_set (handlersOf p fn))) as [H1 H2].
    split.
    + intros f. rewrite H1.
      destruct (decide (f ∈ omap memberFn ms)) as [Hin|Hin].
      * rewrite decide_True; [done|]. by apply elem_of_cons; right.
      * destruct (decide (f = fn)) as [->|Hne].
        -- rewrite lookup_insert_eq. rewrite decide_True; [done|].
           by apply elem_of_cons; left.
        -- rewrite lookup_insert_ne by done. rewrite decide_False; [done|].
           intros [?|?]%elem_of_cons; done.
    + intros x. rewrite H2. unfold entriesOfMember.
      split.
      * intros [Hx|(g & Hg & Hx)].
        -- apply elem_of_union in Hx as [Hx|Hx].
           ++ destruct (isMainMain (deref p fn)) eqn:Hm.
              ** apply elem_of_union in Hx as [Hx|Hx]; [|by left].
                 apply elem_of_singleton in Hx as ->. right. exists fn.
                 split; [by apply elem_of_cons; left|by left].
              ** by left.
           ++ right. exists fn. split; [by apply elem_of_cons; left|].
              right. by apply elem_of_list_to_set in Hx.
        -- right. exists g. split; [by apply elem_of_cons; right|done].
      * intros [Hx|(g & Hg & Hx)].
        -- left. destruct (isMainMain (deref p fn)); set_solver.
        -- apply elem_of_cons in Hg as [->|Hg].
           ++ left. destruct Hx as [[-> Hm]|Hx].
              ** rewrite Hm. set_solver.
              ** apply elem_of_union. right. by apply elem_of_list_to_set.
           ++ right. by exists g.
Qed.

Lemma scanProgram_flat p :
  scanProgram p = foldl (scanMember p) (∅, ∅) (concat (Members <$> ssaPkgs p)).
Proof.
  unfold scanProgram. rewrite <- foldl_blocks.
  generalize (∅ : gmap nat Counts, ∅ : gset nat).
  induction (ssaPkgs p) as [|pkg pkgs IH]; intros st; cbn; [done|]. apply IH.
Qed.

(** [localCounts] has an entry exactly for the member functions, and the
    entry is the scan of the function's own instructions. *)
Lemma localCounts_spec p f :
  localCounts p !! f
  = if decide (f ∈ memberFuncs p) then Some (scanCounts p f) else None.
Proof.
  unfold localCounts. rewrite scanProgram_flat.
  destruct (scanMembers_spec p (concat (Members <$> ssaPkgs p)) ∅ ∅) as [H _].
  rewrite H. unfold memberFuncs. case_decide; [done|apply lookup_empty].
Qed.

(** The entry set: the member functions [main.main] and the handlers passed
    to a registration call of a member function. *)
Lemma entryFuncsSet_spec p x :
  x ∈ entryFuncsSet p ↔ ∃ g, g ∈ memberFuncs p ∧ entriesOfMember p g x.
Proof.
  unfold entryFuncsSet. rewrite scanProgram_flat.
  destruct (scanMembers_spec p (concat (Members <$> ssaPkgs p)) ∅ ∅) as [_ H].
  rewrite H. unfold memberFuncs. split; [|by right].
  intros [Hx|?]; [|done]. by apply not_elem_of_empty in Hx.
Qed.

(** ** Aggregation *)

Definition sumOf (f : ProcessReport → Z) (l : list ProcessReport) : Z :=
  foldr (λ pr acc, f pr + acc) 0 l.

Lemma sumOf_app f l k : sumOf f (l ++ k) = sumOf f l + sumOf f k.
Proof. induction l as [|x l IH]; simpl; lia. Qed.

Lemma sumOf_perm f l k : l ≡ₚ k → sumOf f l = sumOf f k.
Proof. induction 1; simpl; lia. Qed.

(** The totals of an output are the sums of its reports. *)
Definition totalsConsistent (out : Output) : Prop :=
  TotalEntries out = sumOf Entries (Processes out)
  ∧ TotalExits out = sumOf Exits (Processes out)
  ∧ TotalReads out = sumOf Reads (Processes out)
  ∧ TotalWrites out = sumOf Writes (Processes out).

Lemma addReport_consistent out pr :
  totalsConsistent out → totalsConsistent (addReport out pr).
Proof.
  unfold totalsConsistent. intros (H1 & H2 & H3 & H4). simpl.
  rewrite !sumOf_app. simpl. lia.
Qed.

Lemma aggregate_consistent process order : ∀ out out',
  totalsConsistent out →
  aggregate process order out = Done out' → totalsConsistent out'.
Proof.
  induction order as [|fn order IH]; intros out out' Hc Hrun; simpl in Hrun.
  - by inversion Hrun; subst.
  - destruct (process fn) as [pr| | |]; simpl in Hrun; try done.
    eapply IH; [|exact Hrun]. by apply addReport_consistent.
Qed.

(** The reports of an aggregation are the reports of the entries, in the
    order in which the entries were taken. *)
Lemma aggregate_reports process order : ∀ out out',
  aggregate process order out = Done out' →
  ∃ prs, Processes out' = Processes out ++ prs
         ∧ Forall2 (λ fn pr, process fn = Done pr) order prs.
Proof.
  induction order as [|fn order IH]; intros out out' Hrun; simpl in Hrun.
  - inversion Hrun; subst. exists []. by rewrite app_nil_r.
  - destruct (process fn) as [pr| | |] eqn:Hp; simpl in Hrun; try done.
    destruct (IH _ _ Hrun) as (prs & Heq & Hall).
    exists (pr :: prs). split; [|by constructor].
    rewrite Heq. simpl. by rewrite <- app_assoc.
Qed.

Lemma aggregate_done process order : ∀ out,
  (∀ fn, fn ∈ order → ∃ pr, process fn = Done pr) →
  ∃ out', aggregate process order out = Done out'.
Proof.
  induction order as [|fn order IH]; intros out Hp; simpl; [by eexists|].
  destruct (Hp fn) as [pr ->]; [by apply elem_of_cons; left|]. simpl.
  apply IH. intros g Hg. apply Hp. by apply elem_of_cons; right.
Qed.

Lemma aggregate_not_fatal process order : ∀ out,
  (∀ fn, process fn ≠ Fatal) → aggregate process order out ≠ Fatal.
Proof.
  induction order as [|fn order IH]; intros out Hp; simpl; [done|].
  specialize (Hp fn) as Hfn.
  destruct (process fn) as [pr| | |]; simpl; try done. by apply IH.
Qed.

Lemma traverseStatic_outcome p lcs fn :
  traverseStatic p lcs fn = NilDeref ∨ ∃ pr, traverseStatic p lcs fn = Done pr.
Proof.
  destruct (Pkg (deref p fn)) as [path|] eqn:Hpkg.
  - right. destruct (traverseStaticFrom_spec p lcs fn path Hpkg)
      as (reach & pr & Hrun & _).
    exists pr. unfold traverseStatic. by rewrite Hrun.
  - left. by apply traverseStatic_nil.
Qed.

(** ** The node map of the call graph *)

Lemma funcToNode_fold cg l : ∀ (m0 : gmap nat nat) (f : nat),
  let m := foldl (λ m n,
    match Func (derefNode cg n) with
    | Some f => <[f := n]> m
    | None => m
    end) m0 l in
  (∀ n, m !! f = Some n →
        m0 !! f = Some n ∨ (n ∈ l ∧ Func (derefNode cg n) = Some f))
  ∧ (m !! f = None →
        m0 !! f = None ∧ ∀ n, n ∈ l → Func (derefNode cg n) ≠ Some f).
Proof.
  induction l as [|x l IH]; intros m0 f; cbn.
  - split; [by left|]. intros H. split; [done|]. intros n Hn.
    by apply elem_of_nil in Hn.
  - destruct (Func (derefNode cg x)) as [g|] eqn:Hx.
    + destruct (IH (<[g := x]> m0) f) as [H1 H2]. split.
      * intros n Hn. destruct (H1 n Hn) as [Hm|[Hin Hf]].
        -- destruct (decide (g = f)) as [->|Hne].
           ++ rewrite lookup_insert_eq in Hm. inversion Hm; subst.
              right. split; [by apply elem_of_cons; left|done].
           ++ rewrite lookup_insert_ne in Hm by done. by left.
        -- right. split; [by apply elem_of_cons; right|done].
      * intros Hn. destruct (H2 Hn) as [Hm Hl].
        destruct (decide (g = f)) as [->|Hne].
        -- by rewrite lookup_insert_eq in Hm.
        -- rewrite lookup_insert_ne in Hm by done. split; [done|].
           intros n [->|Hin]%elem_of_cons; [congruence|by apply Hl].
    + destruct (IH m0 f) as [H1 H2]. split.
      * intros n Hn. destruct (H1 n Hn) as [Hm|[Hin Hf]]; [by left|].
        right. split; [by apply elem_of_cons; right|done].
      * intros Hn. destruct (H2 Hn) as [Hm Hl]. split; [done|].
        intros n [->|Hin]%elem_of_cons; [congruence|by apply Hl].
Qed.

(** An entry of [funcToNode] is a node of the graph that wraps the key. *)
Lemma funcToNode_Some cg f n :
  funcToNode cg !! f = Some n → n ∈ Nodes cg ∧ Func (derefNode cg n) = Some f.
Proof.
  intros H. destruct (funcToNode_fold cg (Nodes cg) ∅ f) as [H1 _].
  destruct (H1 n H) as [Hm|?]; [|done]. by rewrite lookup_empty in Hm.
Qed.

(** [funcToNode] has no entry exactly when no node of the graph wraps the
    function. *)
Lemma funcToNode_None cg f :
  funcToNode cg !! f = None ↔
  ∀ n, n ∈ Nodes cg → Func (derefNode cg n) ≠ Some f.
Proof.
  split.
  - intros H. by destruct (funcToNode_fold cg (Nodes cg) ∅ f) as [_ [_ H2]].
  - intros Hno. destruct (funcToNode cg !! f) as [n|] eqn:Hn; [|done].
    apply funcToNode_Some in Hn as [Hin Hf]. by destruct (Hno n Hin).
Qed.

(** ** Example programs *)

Definition callTo (f : FuncId) : Instruction :=
  Call {| StaticCallee := Some f; Args := [] |}.

Definition mkFunction (path name : string) (body : list Instruction) : Function :=
  {| Pkg := Some path; Name := name; String_ := dotted path name;
     Blocks := [body] |}.

(** [main.main] opens a file, prints and exits; the three callees are
    library functions without instructions. *)
Definition scenarioProgram : Program :=
  {| funcs := [ mkFunction "main" "main" [callTo 1; callTo 2; callTo 3];
                mkFunction "os" "Open" [];
                mkFunction "fmt" "Printf" [];
                mkFunction "os" "Exit" [] ];
     ssaPkgs := [ {| Members := [MFunction 0%nat] |} ] |}.

(** ** Totals *)

(** C2: for every run that produces an output, under both strategies and for
    every order in which the entries are taken, each of the four totals of
    the output is the sum of the corresponding field over its reports. *)
Theorem totals_are_sums p ptrMode analysis out :
  Runs p ptrMode analysis (Done out) →
  TotalEntries out = sumOf Entries (Processes out)
  ∧ TotalExits out = sumOf Exits (Processes out)
  ∧ TotalReads out = sumOf Reads (Processes out)
  ∧ TotalWrites out = sumOf Writes (Processes out).
Proof.
  intros (order & _ & Hrun). unfold RunWith in Hrun.
  assert (Hc : totalsConsistent emptyOutput) by (by unfold totalsConsistent).
  destruct ptrMode.
  - destruct analysis as [cg|]; [|done].
    exact (aggregate_consistent _ _ _ _ Hc Hrun).
  - exact (aggregate_consistent _ _ _ _ Hc Hrun).
Qed.

Definition scenarioOutput : Output :=
  {| TotalEntries := 0; TotalExits := 1; TotalReads := 1; TotalWrites := 1;
     Processes := [ {| PName := "main.main"; Source := "main.main";
                       Entries := 0; Exits := 1; Reads := 1; Writes := 1;
                       Funcs := 4 |} ] |}.

Lemma scenario_runs : Runs scenarioProgram false AnalyzeErr (Done scenarioOutput).
Proof. exists [0%nat]. split; [by vm_compute|by vm_compute]. Qed.

Lemma totals_are_sums_witness :
  Runs scenarioProgram false AnalyzeErr (Done scenarioOutput)
  ∧ TotalReads scenarioOutput = sumOf Reads (Processes scenarioOutput).
Proof.
  split; [exact scenario_runs|].
  apply (totals_are_sums scenarioProgram false AnalyzeErr scenarioOutput).
  exact scenario_runs.
Defined.

(** ** Classification of call sites *)



Definition flag (b : bool) : Z := if b then 1 else 0.

Definition calleeHas (p : Program) (test : Function → bool) (cc : CallCommon) : bool :=
  match StaticCallee cc with
  | Some sc => test (deref p sc)
  | None => false
  end.

Lemma counts_eq (a b : Counts) :
  cEntries a = cEntries b → cExits a = cExits b → cReads a = cReads b →
  cWrites a = cWrites b → a = b.
Proof. destruct a, b; simpl; intros; by subst. Qed.

(** A call site adds one to each metric whose test accepts its static
    callee, and nothing else. *)
Lemma countCall_fields p c cc :
  cEntries (countCall p c cc) = cEntries c + flag (calleeHas p isRegistrationFunction cc)
  ∧ cExits (countCall p c cc) = cExits c + flag (calleeHas p matchesExit cc)
  ∧ cReads (countCall p c cc) = cReads c + flag (calleeHas p matchesRead cc)
  ∧ cWrites (countCall p c cc) = cWrites c + flag (calleeHas p matchesWrite cc).
Proof.
  unfold countCall, scanCall, calleeHas.
  destruct (StaticCallee cc) as [sc|]; simpl; [|lia].
  destruct (isRegistrationFunction (deref p sc)), (matchesExit (deref p sc)),
    (matchesRead (deref p sc)), (matchesWrite (deref p sc)); simpl; lia.
Qed.





Lemma tableLookup_registration tbl fn path :
  Pkg fn = Some path → tableLookup tbl path (Name fn) = true →
  isRegistrationFunction_in tbl fn = true.
Proof. unfold isRegistrationFunction_in. by intros -> ->. Qed.

Lemma tableLookup_read tbl fn path :
  Pkg fn = Some path → tableLookup tbl path (Name fn) = true →
  matchesRead_in tbl fn = true.
Proof. unfold matchesRead_in. by intros -> ->. Qed.

Lemma tableLookup_write tbl fn path :
  Pkg fn = Some path → tableLookup tbl path (Name fn) = true →
  matchesWrite_in tbl fn = true.
Proof. unfold matchesWrite_in. by intros -> ->. Qed.

Lemma tableLookup_exit tbl fn path :
  Pkg fn = Some path → tableLookup tbl path (Name fn) = true →
  matchesExit_in tbl fn = true.
Proof. unfold matchesExit_in. by intros -> ->. Qed.

(** C7: when the package path and name of the static callee of a call site
    are an entry of a category's rule table, the test of that category
    accepts the callee and the call site adds one to that category's count,
    whatever the name is otherwise, so whether or not a fallback on the name
    would match. *)
Theorem exact_match_is_labelled p cc sc path c es :
  StaticCallee cc = Some sc →
  Pkg (deref p sc) = Some path →
  (tableLookup entryRegistrations path (Name (deref p sc)) = true →
     isRegistrationFunction (deref p sc) = true
     ∧ cEntries (scanCall p (c, es) cc).1 = cEntries c + 1)
  ∧ (tableLookup readFuncs path (Name (deref p sc)) = true →
     matchesRead (deref p sc) = true
     ∧ cReads (scanCall p (c, es) cc).1 = cReads c + 1)
  ∧ (tableLookup writeFuncs path (Name (deref p sc)) = true →
     matchesWrite (deref p sc) = true
     ∧ cWrites (scanCall p (c, es) cc).1 = cWrites c + 1)
  ∧ (tableLookup exitFuncs path (Name (deref p sc)) = true →
     matchesExit (deref p sc) = true
     ∧ cExits (scanCall p (c, es) cc).1 = cExits c + 1).
Proof.
  intros Hsc Hpkg. rewrite scanCall_spec. simpl.
  destruct (countCall_fields p c cc) as (E1 & E2 & E3 & E4).
  unfold calleeHas in *. rewrite Hsc in *.
  split_and!; intros Hl.
  - pose proof (tableLookup_registration _ _ _ Hpkg Hl) as H.
    unfold isRegistrationFunction. rewrite E1. unfold isRegistrationFunction.
    by rewrite H.
  - pose proof (tableLookup_read _ _ _ Hpkg Hl) as H.
    unfold matchesRead. rewrite E3. unfold matchesRead. by rewrite H.
  - pose proof (tableLookup_write _ _ _ Hpkg Hl) as H.
    unfold matchesWrite. rewrite E4. unfold matchesWrite. by rewrite H.
  - pose proof (tableLookup_exit _ _ _ Hpkg Hl) as H.
    unfold matchesExit. rewrite E2. unfold matchesExit. by rewrite H.
Qed.

(** ** Failure of the pointer analysis *)

(** C9: in pointer mode a failed [pointer.Analyze] ends the run in
    [log.Fatalf], so no output is produced; in static mode the analysis is
    not consulted and the run never ends in [log.Fatalf]. *)
Theorem analysis_failure_is_fatal p analysis order :
  RunWith p true AnalyzeErr order = Fatal
  ∧ RunWith p false analysis order = RunWith p false AnalyzeErr order
  ∧ RunWith p false analysis order ≠ Fatal.
Proof.
  split_and!; [done|done|].
  unfold RunWith. apply aggregate_not_fatal. intros fn.
  destruct (traverseStatic_outcome p (localCounts p) fn) as [->|[pr ->]]; done.
Qed.

(** A program with a registered handler, a registered closure, two call
    paths from [main.main] to [main.shared] and a call cycle between
    [main.shared] and [main.helperA]. *)
Definition register (handler : Value) : Instruction :=
  Call {| StaticCallee := Some 3%nat; Args := [VOther; handler] |}.

Definition exampleProgram : Program :=
  {| funcs := [
       (* 0 *) mkFunction "main" "main"
                 [callTo 1; callTo 2; register (VFunction 4);
                  register (VMakeClosure (VFunction 8)); OtherInstr];
       (* 1 *) mkFunction "main" "helperA" [callTo 5];
       (* 2 *) mkFunction "main" "helperB" [Defer {| StaticCallee := Some 5%nat; Args := [] |}];
       (* 3 *) mkFunction "net/http" "HandleFunc" [];
       (* 4 *) mkFunction "main" "handler"
                 [callTo 7; Call {| StaticCallee := None; Args := [VOther] |}];
       (* 5 *) mkFunction "main" "shared" [callTo 1; callTo 6];
       (* 6 *) mkFunction "os" "Open" [];
       (* 7 *) mkFunction "database/sql" "Query" [];
       (* 8 *) mkFunction "main" "main$1" [callTo 6; callTo 7] ];
     ssaPkgs := [ {| Members := [MFunction 0%nat; MOther; MFunction 1%nat;
                                 MFunction 2%nat; MFunction 4%nat;
                                 MFunction 5%nat] |} ] |}.

Definition edgeTo (n : NodeId) : option Edge := Some {| Callee := Some n |}.

(** A call graph for [exampleProgram] that links neither the handler nor
    the closure. *)
Definition exampleGraph : Graph :=
  {| Nodes := [0; 1; 2; 3; 4; 5]%nat;
     nodeHeap := [
       (* 0 *) {| Func := Some 0%nat; Out := [edgeTo 1; edgeTo 2; edgeTo 3; edgeTo 3] |};
       (* 1 *) {| Func := Some 1%nat; Out := [edgeTo 4] |};
       (* 2 *) {| Func := Some 2%nat; Out := [edgeTo 4; None] |};
       (* 3 *) {| Func := Some 3%nat; Out := [] |};
       (* 4 *) {| Func := Some 5%nat; Out := [edgeTo 1; edgeTo 5; Some {| Callee := None |}] |};
       (* 5 *) {| Func := Some 6%nat; Out := [] |} ] |}.


Lemma exact_match_is_labelled_witness :
  matchesRead (deref scenarioProgram 1%nat) = true
  ∧ cReads (scanCall scenarioProgram (zeroCounts, ∅)
              {| StaticCallee := Some 1%nat; Args := [] |}).1 = 1.
Proof.
  destruct (exact_match_is_labelled scenarioProgram
              {| StaticCallee := Some 1%nat; Args := [] |} 1%nat "os"
              zeroCounts ∅) as (_ & Hread & _).
  - reflexivity.
  - reflexivity.
  - apply Hread. vm_compute. reflexivity.
Defined.

(** ** Entries without a node of the call graph *)


Definition exampleOutput : Output :=
  Eval vm_compute in
    match RunWith exampleProgram true (AnalyzeOk exampleGraph) [0; 4; 8]%nat with
    | Done out => out
    | _ => emptyOutput
    end.


(** ** The scenario of a single entry *)






(** ** Nodes and the functions they wrap *)

Definition nodeFunc (cg : Graph) (n : NodeId) : option FuncId :=
  Func (derefNode cg n).

(** The invariant of [callgraph.Graph], whose nodes are created per
    function ([Nodes] is keyed by function): no two nodes wrap the same
    function. *)
Definition oneNodePerFunc (cg : Graph) : Prop :=
  NoDup (omap Func (nodeHeap cg)).

Lemma NoDup_omap_lookup {A} (g : A → option nat) (l : list A) : ∀ n m a b f,
  NoDup (omap g l) →
  l !! n = Some a → l !! m = Some b → g a = Some f → g b = Some f → n = m.
Proof.
  induction l as [|x l IH]; intros n m a b f Hnd Hn Hm Ha Hb; [done|].
  assert (Htail : NoDup (omap g l)).
  { cbn in Hnd. destruct (g x); [by apply NoDup_cons in Hnd as [_ ?]|done]. }
  assert (Hhead : ∀ c, c ∈ l → g x = Some f → g c = Some f → False).
  { intros c Hc Hx Hgc. cbn in Hnd. rewrite Hx in Hnd.
    apply NoDup_cons in Hnd as [Hnotin _]. apply Hnotin.
    apply list_elem_of_omap. by exists c. }
  destruct n as [|n], m as [|m]; simpl in *.
  - done.
  - inversion Hn; subst. exfalso.
    eapply (Hhead b); [by eapply list_elem_of_lookup_2|done|done].
  - inversion Hm; subst. exfalso.
    eapply (Hhead a); [by eapply list_elem_of_lookup_2|done|done].
  - f_equal. by eapply (IH n m a b f).
Qed.

Lemma nodeFunc_lookup cg n f :
  nodeFunc cg n = Some f →
  ∃ nd, nodeHeap cg !! n = Some nd ∧ Func nd = Some f.
Proof.
  unfold nodeFunc, derefNode. destruct (nodeHeap cg !! n) as [nd|]; simpl; [|done].
  intros H. by exists nd.
Qed.

Lemma oneNodePerFunc_inj cg n m f :
  oneNodePerFunc cg → nodeFunc cg n = Some f → nodeFunc cg m = Some f → n = m.
Proof.
  intros Hnd Hn Hm.
  apply nodeFunc_lookup in Hn as (a & Ha & Hfa).
  apply nodeFunc_lookup in Hm as (b & Hb & Hfb).
  by eapply (NoDup_omap_lookup Func (nodeHeap cg) n m a b f).
Qed.

(** The functions wrapped by a set of nodes. *)
Definition funcsOf (cg : Graph) (X : gset NodeId) : gset FuncId :=
  list_to_set (omap (nodeFunc cg) (elements X)).

Lemma elem_of_funcsOf cg X f :
  f ∈ funcsOf cg X ↔ ∃ n, n ∈ X ∧ nodeFunc cg n = Some f.
Proof.
  unfold funcsOf. rewrite elem_of_list_to_set, list_elem_of_omap.
  split; intros (n & Hn & Hf); exists n; split; try done;
    by apply elem_of_elements.
Qed.

Lemma NoDup_omap_inj (h : nat → option nat) (l : list nat) :
  (∀ n m f, h n = Some f → h m = Some f → n = m) →
  NoDup l → NoDup (omap h l).
Proof.
  intros Hinj. induction l as [|x l IH]; intros Hnd; cbn; [constructor|].
  apply NoDup_cons in Hnd as [Hx Hnd].
  destruct (h x) as [f|] eqn:Hhx; [|by apply IH].
  apply NoDup_cons. split; [|by apply IH].
  intros Hin. apply list_elem_of_omap in Hin as (y & Hy & Hhy).
  by rewrite (Hinj x y f Hhx Hhy) in Hx.
Qed.

Lemma sumList_cons w x l : sumList w (x :: l) = w x + sumList w l.
Proof. done. Qed.

Arguments sumList : simpl never.

Lemma sumList_omap (u v : nat → Z) (h : nat → option nat) (l : list nat) :
  (∀ n, u n = match h n with Some f => v f | None => 0 end) →
  sumList u l = sumList v (omap h l).
Proof.
  intros Hu. induction l as [|x l IH]; [done|].
  rewrite sumList_cons, Hu, IH. cbn. destruct (h x); [by rewrite sumList_cons|lia].
Qed.

(** With one node per function, sums over a set of nodes are sums over
    the set of functions they wrap. *)
Lemma sumsOver_funcsOf cg lcs X pr :
  oneNodePerFunc cg →
  sumsOver (nodeCounts cg lcs) (nodeFuncs cg) X pr →
  sumsOver (countsAt lcs) (λ _, 1) (funcsOf cg X) pr.
Proof.
  intros Hone (E1 & E2 & E3 & E4 & E5).
  assert (Hnd : NoDup (omap (nodeFunc cg) (elements X))).
  { apply NoDup_omap_inj; [|apply NoDup_elements].
    intros n m f. by apply oneNodePerFunc_inj. }
  unfold sumsOver, funcsOf. rewrite !sumOver_list by done.
  unfold sumOver in *.
  split_and!; [rewrite E1|rewrite E2|rewrite E3|rewrite E4|rewrite E5];
    apply sumList_omap; intros n; unfold nodeCounts, nodeFuncs, nodeFunc;
    by destruct (Func (derefNode cg n)).
Qed.

(** The functions reachable from an entry in pointer mode: those wrapped by
    the nodes reachable from the entry's node, or the statically reachable
    ones when the entry has no node. *)
Definition ptrReach (p : Program) (cg : Graph) (fn g : FuncId) : Prop :=
  match funcToNode cg !! fn with
  | Some node => ∃ m, cgReach cg node m ∧ nodeFunc cg m = Some g
  | None => staticReach p fn g
  end.

(** ** No double count within one process *)

(** C1: for every entry (with a package, so that its report can be named)
    and under both strategies, the report of the entry carries, for each of
    the four metrics, the sum of the local counts over the set of functions
    reachable from the entry, and its function counter is the size of that
    set: every reachable function contributes its local counts once and is
    counted once, however many call paths or cycles lead to it.  In pointer
    mode the visited set is keyed by graph node, and the call graph has one
    node per function. *)
Theorem each_function_counted_once p cg fn path :
  Pkg (deref p fn) = Some path →
  (∃ reach pr,
     traverseStatic p (localCounts p) fn = Done pr
     ∧ (∀ g, g ∈ reach ↔ staticReach p fn g)
     ∧ Entries pr = sumOver (λ g, cEntries (countsAt (localCounts p) g)) reach
     ∧ Exits pr = sumOver (λ g, cExits (countsAt (localCounts p) g)) reach
     ∧ Reads pr = sumOver (λ g, cReads (countsAt (localCounts p) g)) reach
     ∧ Writes pr = sumOver (λ g, cWrites (countsAt (localCounts p) g)) reach
     ∧ Funcs pr = Z.of_nat (size reach))
  ∧ (oneNodePerFunc cg →
     ∃ reach pr,
     processPtr p cg (localCounts p) fn = Done pr
     ∧ (∀ g, g ∈ reach ↔ ptrReach p cg fn g)
     ∧ Entries pr = sumOver (λ g, cEntries (countsAt (localCounts p) g)) reach
     ∧ Exits pr = sumOver (λ g, cExits (countsAt (localCounts p) g)) reach
     ∧ Reads pr = sumOver (λ g, cReads (countsAt (localCounts p) g)) reach
     ∧ Writes pr = sumOver (λ g, cWrites (countsAt (localCounts p) g)) reach
     ∧ Funcs pr = Z.of_nat (size reach)).
Proof.
  intros Hpkg.
  destruct (traverseStaticFrom_spec p (localCounts p) fn path Hpkg)
    as (reach & pr & Hrun & Hreach & _ & _ & (E1 & E2 & E3 & E4 & E5)).
  assert (Hstatic : ∃ reach pr,
     traverseStatic p (localCounts p) fn = Done pr
     ∧ (∀ g, g ∈ reach ↔ staticReach p fn g)
     ∧ Entries pr = sumOver (λ g, cEntries (countsAt (localCounts p) g)) reach
     ∧ Exits pr = sumOver (λ g, cExits (countsAt (localCounts p) g)) reach
     ∧ Reads pr = sumOver (λ g, cReads (countsAt (localCounts p) g)) reach
     ∧ Writes pr = sumOver (λ g, cWrites (countsAt (localCounts p) g)) reach
     ∧ Funcs pr = Z.of_nat (size reach)).
  { exists reach, pr. unfold traverseStatic. rewrite Hrun. simpl.
    rewrite <- sumOver_one. by split_and!. }
  split; [exact Hstatic|]. intros Hone.
  unfold processPtr, ptrReach.
  destruct (funcToNode cg !! fn) as [node|] eqn:Hnode; [|exact Hstatic].
  destruct (traverseGraphFrom_spec p cg (localCounts p) fn node path Hpkg)
    as (visited & pr' & Hrun' & Hreach' & _ & _ & Hsums).
  apply (sumsOver_funcsOf _ _ _ _ Hone) in Hsums as (F1 & F2 & F3 & F4 & F5).
  exists (funcsOf cg visited), pr'. rewrite Hrun'. simpl.
  rewrite <- sumOver_one. split_and!; try done.
  intros g. rewrite elem_of_funcsOf. split.
  - intros (n & Hn & Hf). exists n. split; [by apply Hreach'|done].
  - intros (n & Hn & Hf). exists n. split; [by apply Hreach'|done].
Qed.

Lemma each_function_counted_once_witness :
  ∃ reach pr,
    processPtr exampleProgram exampleGraph (localCounts exampleProgram) 0%nat
      = Done pr
    ∧ (∀ g, g ∈ reach ↔ ptrReach exampleProgram exampleGraph 0%nat g)
    ∧ Entries pr
      = sumOver (λ g, cEntries (countsAt (localCounts exampleProgram) g)) reach
    ∧ Exits pr
      = sumOver (λ g, cExits (countsAt (localCounts exampleProgram) g)) reach
    ∧ Reads pr
      = sumOver (λ g, cReads (countsAt (localCounts exampleProgram) g)) reach
    ∧ Writes pr
      = sumOver (λ g, cWrites (countsAt (localCounts exampleProgram) g)) reach
    ∧ Funcs pr = Z.of_nat (size reach).
Proof.
  destruct (each_function_counted_once exampleProgram exampleGraph 0%nat "main")
    as [_ Hptr].
  - reflexivity.
  - apply Hptr.
    unfold oneNodePerFunc. apply (bool_decide_unpack _). vm_compute. reflexivity.
Defined.

(** ** Functions that are not scanned *)

Lemma sumList_filter_zero (w : nat → Z) (P : nat → Prop)
    `{!∀ x, Decision (P x)} (l : list nat) :
  (∀ n, n ∈ l → ¬ P n → w n = 0) → sumList w (filter P l) = sumList w l.
Proof.
  induction l as [|x l IH]; intros Hz; [done|].
  rewrite filter_cons, sumList_cons.
  assert (IH' : sumList w (filter P l) = sumList w l).
  { apply IH. intros n Hn. apply Hz. by apply elem_of_cons; right. }
  destruct (decide (P x)) as [HP|HP].
  - rewrite sumList_cons. lia.
  - rewrite (Hz x); [lia|by apply elem_of_cons; left|done].
Qed.

(** Members of a set that weigh nothing can be left out of a sum. *)
Lemma sumOver_filter_zero (w : nat → Z) (P : nat → Prop)
    `{!∀ x, Decision (P x)} (X : gset nat) :
  (∀ n, n ∈ X → ¬ P n → w n = 0) → sumOver w (filter P X) = sumOver w X.
Proof.
  intros Hz. unfold sumOver.
  rewrite <- (sumList_filter_zero w P (elements X)).
  - apply sumList_perm. apply NoDup_Permutation.
    + apply NoDup_elements.
    + apply NoDup_filter, NoDup_elements.
    + intros x. rewrite elem_of_elements, elem_of_filter, list_elem_of_filter.
      by rewrite elem_of_elements.
  - intros n Hn. apply Hz. by apply elem_of_elements.
Qed.

Lemma countsAt_unscanned p f :
  f ∉ memberFuncs p → countsAt (localCounts p) f = zeroCounts.
Proof.
  intros Hf. unfold countsAt. rewrite localCounts_spec.
  by rewrite decide_False.
Qed.

(** C10: [localCounts] has entries for the member functions of the created
    packages only; a function that is not such a member (an anonymous
    function or closure body, also one registered as an entry through a
    closure argument) has no entry in [localCounts]; a visit of it
    in either traversal only increments the function counter; hence the four
    metrics of every report are the sums over the visited functions other
    than it, while the function counter counts it when it is visited. *)
Theorem unscanned_functions_add_nothing p f :
  f ∉ memberFuncs p →
  (∀ g, is_Some (localCounts p !! g) ↔ g ∈ memberFuncs p)
  ∧ localCounts p !! f = None
  ∧ (∀ pr, incFuncs (addLocal (localCounts p) f pr) = incFuncs pr)
  ∧ (∀ cg n pr, nodeFunc cg n = Some f →
                visitNode cg (localCounts p) n pr = incFuncs pr)
  ∧ (∀ fn path, Pkg (deref p fn) = Some path →
       ∃ reach pr,
         traverseStatic p (localCounts p) fn = Done pr
         ∧ (∀ g, g ∈ reach ↔ staticReach p fn g)
         ∧ Entries pr = sumOver (λ g, cEntries (countsAt (localCounts p) g))
                          (filter (λ g, g ≠ f) reach)
         ∧ Exits pr = sumOver (λ g, cExits (countsAt (localCounts p) g))
                        (filter (λ g, g ≠ f) reach)
         ∧ Reads pr = sumOver (λ g, cReads (countsAt (localCounts p) g))
                        (filter (λ g, g ≠ f) reach)
         ∧ Writes pr = sumOver (λ g, cWrites (countsAt (localCounts p) g))
                         (filter (λ g, g ≠ f) reach)
         ∧ Funcs pr = Z.of_nat (size reach))
  ∧ (∀ cg fn node path, Pkg (deref p fn) = Some path →
       ∃ visited pr,
         traverseGraphFrom p cg (localCounts p) fn node = Done (visited, pr)
         ∧ (∀ m, m ∈ visited ↔ cgReach cg node m)
         ∧ Entries pr = sumOver (λ n, cEntries (nodeCounts cg (localCounts p) n))
                          (filter (λ n, nodeFunc cg n ≠ Some f) visited)
         ∧ Exits pr = sumOver (λ n, cExits (nodeCounts cg (localCounts p) n))
                        (filter (λ n, nodeFunc cg n ≠ Some f) visited)
         ∧ Reads pr = sumOver (λ n, cReads (nodeCounts cg (localCounts p) n))
                        (filter (λ n, nodeFunc cg n ≠ Some f) visited)
         ∧ Writes pr = sumOver (λ n, cWrites (nodeCounts cg (localCounts p) n))
                         (filter (λ n, nodeFunc cg n ≠ Some f) visited)
         ∧ Funcs pr = sumOver (nodeFuncs cg) visited).
Proof.
  intros Hf.
  assert (Hnone : localCounts p !! f = None).
  { rewrite localCounts_spec. by rewrite decide_False. }
  pose proof (countsAt_unscanned p f Hf) as Hzero.
  split_and!.
  - intros g. rewrite localCounts_spec. case_decide; [by split|].
    split; [by intros [? ?]|done].
  - exact Hnone.
  - intros pr. unfold addLocal. by rewrite Hnone.
  - intros cg n pr Hn. unfold visitNode. unfold nodeFunc in Hn. rewrite Hn.
    unfold addLocal. by rewrite Hnone.
  - intros fn path Hpkg.
    destruct (traverseStaticFrom_spec p (localCounts p) fn path Hpkg)
      as (reach & pr & Hrun & Hreach & _ & _ & (E1 & E2 & E3 & E4 & E5)).
    exists reach, pr. unfold traverseStatic. rewrite Hrun. simpl.
    rewrite <- sumOver_one.
    rewrite !sumOver_filter_zero; [by split_and!|..];
      intros n _ Hn; apply dec_stable in Hn; subst n; by rewrite Hzero.
  - intros cg fn node path Hpkg.
    destruct (traverseGraphFrom_spec p cg (localCounts p) fn node path Hpkg)
      as (visited & pr & Hrun & Hreach & _ & _ & (E1 & E2 & E3 & E4 & E5)).
    exists visited, pr.
    rewrite !sumOver_filter_zero; [by split_and!|..];
      intros n _ Hn; apply dec_stable in Hn; unfold nodeCounts;
      unfold nodeFunc in Hn; by rewrite Hn, Hzero.
Qed.

Lemma unscanned_functions_add_nothing_witness :
  localCounts exampleProgram !! 8%nat = None
  ∧ 8%nat ∈ entryFuncsSet exampleProgram
  ∧ traverseStatic exampleProgram (localCounts exampleProgram) 8%nat
    = Done {| PName := "main.main$1"; Source := "main.main$1";
              Entries := 0; Exits := 0; Reads := 0; Writes := 0; Funcs := 3 |}.
Proof.
  destruct (unscanned_functions_add_nothing exampleProgram 8%nat) as (_ & H & _).
  - apply (bool_decide_unpack _). vm_compute. reflexivity.
  - split; [exact H|]. split.
    + apply (bool_decide_unpack _). vm_compute. reflexivity.
    + vm_compute. reflexivity.
Defined.

(** ** Static and pointer mode compared *)




Definition nonnegCounts (c : Counts) : Prop :=
  0 ≤ cEntries c ∧ 0 ≤ cExits c ∧ 0 ≤ cReads c ∧ 0 ≤ cWrites c.

Lemma flag_nonneg b : 0 ≤ flag b.
Proof. destruct b; simpl; lia. Qed.

Lemma countInstrs_nonneg p l : ∀ c,
  nonnegCounts c → nonnegCounts (foldl (countInstr p) c l).
Proof.
  induction l as [|ins l IH]; intros c Hc; [done|].
  change (foldl (countInstr p) c (ins :: l))
    with (foldl (countInstr p) (countInstr p c ins) l).
  apply IH. unfold countInstr. destruct (callCommonOf ins) as [cc|]; [|done].
  destruct Hc as (H1 & H2 & H3 & H4).
  destruct (countCall_fields p c cc) as (E1 & E2 & E3 & E4).
  pose proof (flag_nonneg (calleeHas p isRegistrationFunction cc)).
  pose proof (flag_nonneg (calleeHas p matchesExit cc)).
  pose proof (flag_nonneg (calleeHas p matchesRead cc)).
  pose proof (flag_nonneg (calleeHas p matchesWrite cc)).
  unfold nonnegCounts. lia.
Qed.

(** Local counts are never negative. *)
Lemma localCounts_nonneg p f : nonnegCounts (countsAt (localCounts p) f).
Proof.
  unfold countsAt. rewrite localCounts_spec.
  case_decide; simpl; [|unfold nonnegCounts; simpl; lia].
  unfold scanCounts. apply countInstrs_nonneg. unfold nonnegCounts. simpl. lia.
Qed.

(** A sum over functions is at most the sum over nodes that wrap all of
    them, when no weight is negative. *)
Lemma sumList_inject (w u : nat → Z) (h : nat → option nat) (fs : list nat) :
  (∀ x, 0 ≤ w x) →
  (∀ n, u n = match h n with Some f => w f | None => 0 end) →
  ∀ ns, NoDup fs → NoDup ns →
        (∀ f, f ∈ fs → ∃ n, n ∈ ns ∧ h n = Some f) →
        sumList w fs ≤ sumList u ns.
Proof.
  intros Hw Hu.
  assert (Hu0 : ∀ n, 0 ≤ u n).
  { intros n. rewrite Hu. destruct (h n); [apply Hw|lia]. }
  induction fs as [|f fs IH]; intros ns Hfs Hns Hcover.
  - by apply sumList_nonneg.
  - apply NoDup_cons in Hfs as [Hf Hfs].
    destruct (Hcover f) as (n & Hn & Hhn); [by apply elem_of_cons; left|].
    apply elem_of_Permutation in Hn as (ns' & Hperm).
    rewrite (sumList_perm u ns (n :: ns') Hperm), !sumList_cons.
    rewrite Hperm in Hns. apply NoDup_cons in Hns as [Hnn Hns'].
    assert (sumList w fs ≤ sumList u ns') as Hle.
    { apply IH; [done|done|]. intros f' Hf'.
      destruct (Hcover f') as (n' & Hn' & Hhn'); [by apply elem_of_cons; right|].
      exists n'. split; [|done].
      rewrite Hperm in Hn'. apply elem_of_cons in Hn' as [->|Hn']; [|done].
      rewrite Hhn in Hhn'. inversion Hhn'; subst. done. }
    rewrite (Hu n), Hhn. lia.
Qed.

Lemma sumOver_inject (w u : nat → Z) (h : nat → option nat) (F N : gset nat) :
  (∀ x, 0 ≤ w x) →
  (∀ n, u n = match h n with Some f => w f | None => 0 end) →
  (∀ f, f ∈ F → ∃ n, n ∈ N ∧ h n = Some f) →
  sumOver w F ≤ sumOver u N.
Proof.
  intros Hw Hu Hcover. unfold sumOver.
  apply (sumList_inject w u h); try done; try apply NoDup_elements.
  intros f Hf. apply elem_of_elements in Hf.
  destruct (Hcover f Hf) as (n & Hn & Hh). exists n.
  split; [by apply elem_of_elements|done].
Qed.





(** ** Two runs over the same program *)

Lemma processPtr_outcome p cg lcs fn :
  processPtr p cg lcs fn = NilDeref ∨ ∃ pr, processPtr p cg lcs fn = Done pr.
Proof.
  unfold processPtr. destruct (funcToNode cg !! fn) as [node|].
  - destruct (Pkg (deref p fn)) as [path|] eqn:Hpkg.
    + right. destruct (traverseGraphFrom_spec p cg lcs fn node path Hpkg)
        as (visited & pr & Hrun & _).
      exists pr. by rewrite Hrun.
    + left. unfold traverseGraphFrom, newReport. by rewrite Hpkg.
  - apply traverseStatic_outcome.
Qed.

Lemma aggregate_not_diverge (process : FuncId → Outcome ProcessReport) order :
  ∀ out, (∀ fn, process fn ≠ Diverge) → aggregate process order out ≠ Diverge.
Proof.
  induction order as [|fn order IH]; intros out Hp; simpl; [done|].
  specialize (Hp fn) as Hfn.
  destruct (process fn) as [pr| | |]; simpl; try done. by apply IH.
Qed.

(** The loop budgets of the model are never exhausted: every run ends with
    an output, a nil dereference or [log.Fatalf]. *)
Lemma RunWith_returns p ptrMode analysis order :
  RunWith p ptrMode analysis order ≠ Diverge.
Proof.
  unfold RunWith. destruct ptrMode.
  - destruct analysis as [cg|]; [|done].
    apply aggregate_not_diverge. intros fn.
    destruct (processPtr_outcome p cg (localCounts p) fn) as [->|[pr ->]]; done.
  - apply aggregate_not_diverge. intros fn.
    destruct (traverseStatic_outcome p (localCounts p) fn) as [->|[pr ->]]; done.
Qed.

(** Every program has a run, for instance the one that takes the entries
    in the order of [elements]. *)
Lemma Runs_exists p ptrMode analysis :
  ∃ r, Runs p ptrMode analysis r.
Proof.
  eexists. exists (elements (entryFuncsSet p)).
  split; [unfold entryOrder; reflexivity|reflexivity].
Qed.

(** The report of an entry, when its traversal returns. *)
Definition reportOf (process : FuncId → Outcome ProcessReport) (fn : FuncId)
  : ProcessReport :=
  match process fn with
  | Done pr => pr
  | _ => {| PName := ""; Source := ""; Entries := 0; Exits := 0; Reads := 0;
            Writes := 0; Funcs := 0 |}
  end.

Lemma Forall2_reportOf process order prs :
  Forall2 (λ fn pr, process fn = Done pr) order prs →
  prs = reportOf process <$> order.
Proof.
  induction 1 as [|fn pr order prs Hp _ IH]; [done|].
  cbn. unfold reportOf at 1. by rewrite Hp, IH.
Qed.

Lemma aggregate_nil_deref (process : FuncId → Outcome ProcessReport) order : ∀ out,
  (∀ fn, process fn = NilDeref ∨ ∃ pr, process fn = Done pr) →
  Exists (λ fn, process fn = NilDeref) order →
  aggregate process order out = NilDeref.
Proof.
  intros out Hd Hex. revert out.
  induction Hex as [fn order Hfn|fn order Hex IH]; intros out; simpl.
  - by rewrite Hfn.
  - destruct (Hd fn) as [->|[pr ->]]; [done|]. simpl. apply IH.
Qed.

Lemma done_or_nil_deref (process : FuncId → Outcome ProcessReport) order :
  (∀ fn, process fn = NilDeref ∨ ∃ pr, process fn = Done pr) →
  Forall (λ fn, ∃ pr, process fn = Done pr) order
  ∨ Exists (λ fn, process fn = NilDeref) order.
Proof.
  intros Hd. induction order as [|fn order [IH|IH]].
  - left. constructor.
  - destruct (Hd fn) as [Hfn|Hfn].
    + right. by constructor.
    + left. by constructor.
  - right. by constructor 2.
Qed.

(** Aggregations over two orders of the same entries agree on the totals
    and on the reports up to their order. *)
Lemma aggregate_perm (process : FuncId → Outcome ProcessReport) order1 order2 :
  (∀ fn, process fn = NilDeref ∨ ∃ pr, process fn = Done pr) →
  order1 ≡ₚ order2 →
  (∃ o1 o2,
     aggregate process order1 emptyOutput = Done o1
     ∧ aggregate process order2 emptyOutput = Done o2
     ∧ TotalEntries o1 = TotalEntries o2 ∧ TotalExits o1 = TotalExits o2
     ∧ TotalReads o1 = TotalReads o2 ∧ TotalWrites o1 = TotalWrites o2
     ∧ Processes o1 ≡ₚ Processes o2)
  ∨ (aggregate process order1 emptyOutput = NilDeref
     ∧ aggregate process order2 emptyOutput = NilDeref).
Proof.
  intros Hd Hperm.
  destruct (done_or_nil_deref process order1 Hd) as [Hall|Hex].
  - left.
    assert (Hall2 : Forall (λ fn, ∃ pr, process fn = Done pr) order2)
      by (by rewrite <- Hperm).
    destruct (aggregate_done process order1 emptyOutput) as [o1 H1].
    { intros fn Hfn. by eapply Forall_forall in Hall. }
    destruct (aggregate_done process order2 emptyOutput) as [o2 H2].
    { intros fn Hfn. by eapply Forall_forall in Hall2. }
    exists o1, o2.
    destruct (aggregate_reports _ _ _ _ H1) as (prs1 & Hp1 & Hf1).
    destruct (aggregate_reports _ _ _ _ H2) as (prs2 & Hp2 & Hf2).
    apply Forall2_reportOf in Hf1, Hf2. simpl in Hp1, Hp2.
    assert (Hpp : Processes o1 ≡ₚ Processes o2).
    { rewrite Hp1, Hp2, Hf1, Hf2. by apply fmap_Permutation. }
    assert (Hc : totalsConsistent emptyOutput) by (by unfold totalsConsistent).
    destruct (aggregate_consistent _ _ _ _ Hc H1) as (A1 & A2 & A3 & A4).
    destruct (aggregate_consistent _ _ _ _ Hc H2) as (B1 & B2 & B3 & B4).
    rewrite A1, A2, A3, A4, B1, B2, B3, B4.
    split_and!; try done; by apply sumOf_perm.
  - right. split; apply aggregate_nil_deref; try done. by rewrite <- Hperm.
Qed.

(** Two runs over the same program and pointer-analysis result that take
    the entries in different orders. *)
Lemma runs_agree_fixed p ptrMode analysis r1 r2 :
  Runs p ptrMode analysis r1 →
  Runs p ptrMode analysis r2 →
  (∃ o1 o2,
     r1 = Done o1 ∧ r2 = Done o2
     ∧ TotalEntries o1 = TotalEntries o2 ∧ TotalExits o1 = TotalExits o2
     ∧ TotalReads o1 = TotalReads o2 ∧ TotalWrites o1 = TotalWrites o2
     ∧ Processes o1 ≡ₚ Processes o2)
  ∨ (r1 = r2 ∧ (r1 = NilDeref ∨ r1 = Fatal)).
Proof.
  intros (order1 & Ho1 & <-) (order2 & Ho2 & <-).
  assert (Hperm : order1 ≡ₚ order2).
  { unfold entryOrder in *. by rewrite Ho1, Ho2. }
  unfold RunWith. destruct ptrMode.
  - destruct analysis as [cg|]; [|right; split; [done|by right]].
    destruct (aggregate_perm (processPtr p cg (localCounts p)) order1 order2
                (processPtr_outcome p cg (localCounts p)) Hperm)
      as [(o1 & o2 & H1 & H2 & Ht)|[H1 H2]].
    + left. exists o1, o2. by rewrite H1, H2.
    + right. rewrite H1, H2. split; [done|by left].
  - destruct (aggregate_perm (traverseStatic p (localCounts p)) order1 order2
                (traverseStatic_outcome p (localCounts p)) Hperm)
      as [(o1 & o2 & H1 & H2 & Ht)|[H1 H2]].
    + left. exists o1, o2. by rewrite H1, H2.
    + right. rewrite H1, H2. split; [done|by left].
Qed.

(** *** The orders of the other map ranges

    [ssaPkg.Members] and [cg.Nodes] are Go maps as well.  Two programs are
    the same model when they have the same functions and the same members
    per package, in any order; two analysis results are the same when both
    failed, or both are graphs with the same nodes, listed in any order,
    one per function. *)
Definition sameProgram (p1 p2 : Program) : Prop :=
  funcs p1 = funcs p2
  ∧ Forall2 (λ a b, Members a ≡ₚ Members b) (ssaPkgs p1) (ssaPkgs p2).

Definition sameAnalysis (a1 a2 : AnalyzeResult) : Prop :=
  match a1, a2 with
  | AnalyzeErr, AnalyzeErr => True
  | AnalyzeOk cg1, AnalyzeOk cg2 =>
      nodeHeap cg1 = nodeHeap cg2 ∧ Nodes cg1 ≡ₚ Nodes cg2 ∧ oneNodePerFunc cg1
  | _, _ => False
  end.

Lemma members_perm (l1 l2 : list Package) :
  Forall2 (λ a b, Members a ≡ₚ Members b) l1 l2 →
  concat (Members <$> l1) ≡ₚ concat (Members <$> l2).
Proof.
  induction 1 as [|a b l1 l2 Hab _ IH]; [done|].
  cbn. by rewrite Hab, IH.
Qed.

Lemma sameProgram_members p1 p2 f :
  sameProgram p1 p2 → f ∈ memberFuncs p1 ↔ f ∈ memberFuncs p2.
Proof.
  intros [_ Hm]. unfold memberFuncs. by rewrite (members_perm _ _ Hm).
Qed.

Lemma sameProgram_entriesOfMember p1 p2 g x :
  funcs p1 = funcs p2 → entriesOfMember p1 g x ↔ entriesOfMember p2 g x.
Proof.
  destruct p1 as [F1 S1], p2 as [F2 S2]. simpl. intros ->. done.
Qed.

Lemma sameProgram_localCounts p1 p2 :
  sameProgram p1 p2 → localCounts p1 = localCounts p2.
Proof.
  intros Hs. apply map_eq. intros f. rewrite !localCounts_spec.
  pose proof (sameProgram_members p1 p2 f Hs) as Hm.
  destruct Hs as [Hf _].
  assert (Hc : scanCounts p1 f = scanCounts p2 f).
  { destruct p1 as [F1 S1], p2 as [F2 S2]. simpl in Hf. by subst. }
  repeat case_decide; try tauto. by rewrite Hc.
Qed.

Lemma sameProgram_entryFuncsSet p1 p2 :
  sameProgram p1 p2 → entryFuncsSet p1 = entryFuncsSet p2.
Proof.
  intros Hs. apply set_eq. intros x. rewrite !entryFuncsSet_spec.
  split; intros (g & Hg & Hx); exists g.
  - split; [by apply (sameProgram_members p1 p2 g Hs)|].
    by apply (sameProgram_entriesOfMember p1 p2 g x (proj1 Hs)).
  - split; [by apply (sameProgram_members p1 p2 g Hs)|].
    by apply (sameProgram_entriesOfMember p1 p2 g x (proj1 Hs)).
Qed.

Lemma staticLoop_funcs F S1 S2 lcs fuel : ∀ visited stack pr,
  staticLoop {| funcs := F; ssaPkgs := S1 |} lcs fuel visited stack pr
  = staticLoop {| funcs := F; ssaPkgs := S2 |} lcs fuel visited stack pr.
Proof.
  induction fuel as [|fuel IH]; intros visited stack pr; simpl; [done|].
  destruct stack as [|n stack]; [done|]. case_decide; apply IH.
Qed.

(** The static traversal reads the functions of the program only. *)
Lemma traverseStatic_funcs p1 p2 lcs fn :
  funcs p1 = funcs p2 → traverseStatic p1 lcs fn = traverseStatic p2 lcs fn.
Proof.
  destruct p1 as [F S1], p2 as [F2 S2]. simpl. intros <-.
  unfold traverseStatic, traverseStaticFrom.
  change (deref {| funcs := F; ssaPkgs := S1 |} fn)
    with (deref {| funcs := F; ssaPkgs := S2 |} fn).
  change (staticBudget {| funcs := F; ssaPkgs := S1 |})
    with (staticBudget {| funcs := F; ssaPkgs := S2 |}).
  destruct (newReport (deref {| funcs := F; ssaPkgs := S2 |} fn)); [|done..].
  cbn [bind]. by rewrite (staticLoop_funcs F S1 S2).
Qed.

Lemma bfsLoop_heap H N1 N2 lcs fuel : ∀ visited queue pr,
  bfsLoop {| Nodes := N1; nodeHeap := H |} lcs fuel visited queue pr
  = bfsLoop {| Nodes := N2; nodeHeap := H |} lcs fuel visited queue pr.
Proof.
  induction fuel as [|fuel IH]; intros visited queue pr; simpl; [done|].
  destruct queue as [|n queue]; [done|]. case_decide; apply IH.
Qed.

(** The breadth-first search reads the functions of the program and the
    node heap of the graph only. *)
Lemma traverseGraphFrom_heap p1 p2 cg1 cg2 lcs fn node :
  funcs p1 = funcs p2 → nodeHeap cg1 = nodeHeap cg2 →
  traverseGraphFrom p1 cg1 lcs fn node = traverseGraphFrom p2 cg2 lcs fn node.
Proof.
  destruct p1 as [F S1], p2 as [F2 S2], cg1 as [N1 H], cg2 as [N2 H2].
  simpl. intros <- <-. unfold traverseGraphFrom.
  change (deref {| funcs := F; ssaPkgs := S1 |} fn)
    with (deref {| funcs := F; ssaPkgs := S2 |} fn).
  change (bfsBudget {| Nodes := N1; nodeHeap := H |})
    with (bfsBudget {| Nodes := N2; nodeHeap := H |}).
  destruct (newReport (deref {| funcs := F; ssaPkgs := S2 |} fn)); [|done..].
  cbn [bind]. by rewrite (bfsLoop_heap H N1 N2).
Qed.

(** With one node per function, [funcToNode] maps a function to the node
    of the graph that wraps it, whatever the order of [cg.Nodes]. *)
Lemma funcToNode_wraps cg f n :
  oneNodePerFunc cg →
  funcToNode cg !! f = Some n ↔ n ∈ Nodes cg ∧ nodeFunc cg n = Some f.
Proof.
  intros Hone. split; [apply funcToNode_Some|].
  intros [Hin Hf]. destruct (funcToNode cg !! f) as [n'|] eqn:Hn'.
  - apply funcToNode_Some in Hn' as [_ Hf'].
    by rewrite (oneNodePerFunc_inj cg n n' f Hone Hf Hf').
  - rewrite funcToNode_None in Hn'. by destruct (Hn' n Hin).
Qed.

Lemma sameAnalysis_funcToNode cg1 cg2 :
  nodeHeap cg1 = nodeHeap cg2 → Nodes cg1 ≡ₚ Nodes cg2 → oneNodePerFunc cg1 →
  funcToNode cg1 = funcToNode cg2.
Proof.
  intros Hheap Hnodes Hone.
  assert (Hone2 : oneNodePerFunc cg2) by (unfold oneNodePerFunc; by rewrite <- Hheap).
  assert (Hnf : ∀ n, nodeFunc cg1 n = nodeFunc cg2 n).
  { intros n. unfold nodeFunc, derefNode. by rewrite Hheap. }
  apply map_eq. intros f. apply option_eq. intros n.
  rewrite !funcToNode_wraps by done. by rewrite Hnodes, Hnf.
Qed.

Lemma sameModel_RunWith p1 p2 ptrMode a1 a2 order :
  sameProgram p1 p2 → sameAnalysis a1 a2 →
  RunWith p1 ptrMode a1 order = RunWith p2 ptrMode a2 order.
Proof.
  intros Hp Ha. unfold RunWith.
  rewrite (sameProgram_localCounts p1 p2 Hp).
  destruct Hp as [Hf _].
  assert (Hagg : ∀ (f g : nat → Outcome ProcessReport) out,
            (∀ fn, f fn = g fn) → aggregate f order out = aggregate g order out).
  { intros f g out Hfg. revert out.
    induction order as [|fn order IH]; intros out; simpl; [done|].
    rewrite Hfg. destruct (g fn); simpl; done. }
  destruct ptrMode.
  - destruct a1 as [cg1|], a2 as [cg2|]; simpl in Ha; try done.
    destruct Ha as (Hheap & Hnodes & Hone).
    apply Hagg. intros fn. unfold processPtr.
    rewrite (sameAnalysis_funcToNode cg1 cg2 Hheap Hnodes Hone).
    destruct (funcToNode cg2 !! fn) as [node|].
    + by rewrite (traverseGraphFrom_heap p1 p2 cg1 cg2 _ fn node Hf Hheap).
    + by apply traverseStatic_funcs.
  - apply Hagg. intros fn. by apply traverseStatic_funcs.
Qed.

(** C4, as stated, fails: two static runs over the same program can produce
    outputs that differ (in the order of their reports). *)
Lemma runs_can_differ :
  ¬ ∀ r1 r2,
      Runs exampleProgram false AnalyzeErr r1 →
      Runs exampleProgram false AnalyzeErr r2 → r1 = r2.
Proof.
  intros H.
  specialize (H (RunWith exampleProgram false AnalyzeErr [0; 4; 8]%nat)
                (RunWith exampleProgram false AnalyzeErr [8; 4; 0]%nat)).
  assert (He : elements (entryFuncsSet exampleProgram) = [8; 4; 0]%nat)
    by (vm_compute; reflexivity).
  assert (H1 : Runs exampleProgram false AnalyzeErr
                 (RunWith exampleProgram false AnalyzeErr [0; 4; 8]%nat)).
  { exists [0; 4; 8]%nat. split; [|done]. unfold entryOrder. rewrite He.
    apply (reverse_Permutation [8; 4; 0]%nat). }
  assert (H2 : Runs exampleProgram false AnalyzeErr
                 (RunWith exampleProgram false AnalyzeErr [8; 4; 0]%nat)).
  { exists [8; 4; 0]%nat. split; [|done]. unfold entryOrder. by rewrite He. }
  specialize (H H1 H2). vm_compute in H. discriminate H.
Qed.

(** C4, amended: two runs over the same program model, with the same
    strategy and the same result of the pointer analysis, whatever order the
    ranges over the entry set, the package members and the graph nodes take,
    either both produce an output, and then the four totals are equal and
    the reports are the same up to their order, or both end in the same
    failure. *)
Theorem runs_agree_up_to_order p1 p2 ptrMode a1 a2 r1 r2 :
  sameProgram p1 p2 →
  sameAnalysis a1 a2 →
  Runs p1 ptrMode a1 r1 →
  Runs p2 ptrMode a2 r2 →
  (∃ o1 o2,
     r1 = Done o1 ∧ r2 = Done o2
     ∧ TotalEntries o1 = TotalEntries o2 ∧ TotalExits o1 = TotalExits o2
     ∧ TotalReads o1 = TotalReads o2 ∧ TotalWrites o1 = TotalWrites o2
     ∧ Processes o1 ≡ₚ Processes o2)
  ∨ (r1 = r2 ∧ (r1 = NilDeref ∨ r1 = Fatal)).
Proof.
  intros Hp Ha H1 (order2 & Ho2 & H2).
  apply (runs_agree_fixed p1 ptrMode a1); [done|].
  exists order2. split.
  - unfold entryOrder in *. by rewrite (sameProgram_entryFuncsSet p1 p2 Hp).
  - by rewrite (sameModel_RunWith p1 p2 ptrMode a1 a2 order2 Hp Ha).
Qed.

(** [exampleProgram] and [exampleGraph] with their maps ranged over in the
    opposite order. *)
Definition exampleProgram' : Program :=
  {| funcs := funcs exampleProgram;
     ssaPkgs := (λ pkg, {| Members := reverse (Members pkg) |})
                  <$> ssaPkgs exampleProgram |}.

Definition exampleGraph' : Graph :=
  {| Nodes := reverse (Nodes exampleGraph); nodeHeap := nodeHeap exampleGraph |}.

Lemma runs_agree_up_to_order_witness :
  (∃ o1 o2,
     RunWith exampleProgram true (AnalyzeOk exampleGraph) [0; 4; 8]%nat = Done o1
     ∧ RunWith exampleProgram' true (AnalyzeOk exampleGraph') [4; 8; 0]%nat = Done o2
     ∧ TotalEntries o1 = TotalEntries o2 ∧ TotalExits o1 = TotalExits o2
     ∧ TotalReads o1 = TotalReads o2 ∧ TotalWrites o1 = TotalWrites o2
     ∧ Processes o1 ≡ₚ Processes o2)
  ∨ (RunWith exampleProgram true (AnalyzeOk exampleGraph) [0; 4; 8]%nat
     = RunWith exampleProgram' true (AnalyzeOk exampleGraph') [4; 8; 0]%nat
     ∧ (RunWith exampleProgram true (AnalyzeOk exampleGraph) [0; 4; 8]%nat
          = NilDeref
        ∨ RunWith exampleProgram true (AnalyzeOk exampleGraph) [0; 4; 8]%nat
          = Fatal)).
Proof.
  apply (runs_agree_up_to_order exampleProgram exampleProgram' true
           (AnalyzeOk exampleGraph) (AnalyzeOk exampleGraph')).
  - split; [reflexivity|]. repeat constructor. simpl.
    symmetry. apply reverse_Permutation.
  - split; [reflexivity|]. split.
    + symmetry. apply (reverse_Permutation (Nodes exampleGraph)).
    + unfold oneNodePerFunc. apply (bool_decide_unpack _). vm_compute. reflexivity.
  - exists [0; 4; 8]%nat. split; [|reflexivity].
    unfold entryOrder.
    replace (elements (entryFuncsSet exampleProgram)) with [8; 4; 0]%nat
      by (vm_compute; reflexivity).
    apply (reverse_Permutation [8; 4; 0]%nat).
  - exists [4; 8; 0]%nat. split; [|reflexivity].
    unfold entryOrder.
    replace (elements (entryFuncsSet exampleProgram')) with [8; 4; 0]%nat
      by (vm_compute; reflexivity).
    apply Permutation_swap.
Defined.

(** * Further properties of the analysers *)

(** ** Strings as lists of bytes *)

From Stdlib Require Import Ascii.

Abbreviation chars := String.list_ascii_of_string (only parsing).

Lemma chars_app (a b : string) : chars (a +:+ b) = chars a ++ chars b.
Proof. induction a as [|c a IH]; simpl; [done|]. by rewrite IH. Qed.

Lemma chars_length (s : string) : length (chars s) = String.length s.
Proof. induction s as [|c s IH]; simpl; [done|]. by rewrite IH. Qed.

Lemma chars_inj (a b : string) : chars a = chars b → a = b.
Proof.
  intros H. rewrite <- (String.string_of_list_ascii_of_string a),
    <- (String.string_of_list_ascii_of_string b). by rewrite H.
Qed.

Lemma chars_substring (s : string) : ∀ n m,
  chars (String.substring n m s) = take m (drop n (chars s)).
Proof.
  induction s as [|c s IH]; intros n m; simpl.
  - destruct n, m; done.
  - destruct n as [|n]; simpl.
    + destruct m as [|m]; simpl; [done|]. rewrite IH. done.
    + apply IH.
Qed.

(** [strings.HasSuffix s suffix] holds exactly when [suffix] ends [s]. *)
Lemma HasSuffix_spec (s t : string) :
  HasSuffix s t = true ↔ chars t `suffix_of` chars s.
Proof.
  unfold HasSuffix. rewrite andb_true_iff, Nat.leb_le, String.eqb_eq. split.
  - intros [Hle Hsub]. apply (f_equal String.list_ascii_of_string) in Hsub.
    rewrite chars_substring in Hsub.
    exists (take (String.length s - String.length t) (chars s)).
    rewrite <- Hsub at 1.
    rewrite (take_ge (drop _ _)); [by rewrite take_drop|].
    rewrite length_drop, chars_length. lia.
  - intros [k Hk].
    assert (Hlen : String.length s = (length k + String.length t)%nat).
    { rewrite <- !chars_length, Hk, length_app. done. }
    split; [lia|]. apply chars_inj. rewrite chars_substring, Hk.
    replace (String.length s - String.length t)%nat with (length k) by lia.
    rewrite drop_app_length. apply take_ge. rewrite chars_length. lia.
Qed.

Lemma chars_dotted (a b : string) :
  chars (dotted a b) = chars a ++ "."%char :: chars b.
Proof. unfold dotted. by rewrite !chars_app. Qed.

(** A suffix of [a.b] of the form [c.d], where [d] has no dot, ends with a
    suffix [d] of [b]. *)
Lemma suffix_dotted (A B C D : list ascii) :
  "."%char ∉ D →
  (C ++ "."%char :: D) `suffix_of` (A ++ "."%char :: B) → D `suffix_of` B.
Proof.
  intros Hdot Hsuf.
  assert (HD : D `suffix_of` (A ++ "."%char :: B)).
  { etrans; [|exact Hsuf]. exists (C ++ ["."%char]). by rewrite <- app_assoc. }
  assert (HB : B `suffix_of` (A ++ "."%char :: B)).
  { exists (A ++ ["."%char]). by rewrite <- app_assoc. }
  assert (HB' : ("."%char :: B) `suffix_of` (A ++ "."%char :: B)) by (by exists A).
  destruct (suffix_weak_total _ _ _ HD HB') as [H|H].
  - destruct H as [k Hk]. destruct k as [|c k].
    + simpl in Hk. exfalso. apply Hdot. rewrite <- Hk. by left.
    + simpl in Hk. inversion Hk; subst. by exists k.
  - exfalso. apply Hdot. destruct H as [k Hk]. rewrite Hk.
    apply elem_of_app. right. by left.
Qed.

Lemma HasSuffix_dotted (path name pk mn : string) :
  "."%char ∉ chars mn →
  HasSuffix (dotted path name) (dotted pk mn) = true → HasSuffix name mn = true.
Proof.
  intros Hdot. rewrite !HasSuffix_spec, !chars_dotted. by apply suffix_dotted.
Qed.

(** ** The tests of the classification engine, in closed form *)

Lemma tableLookup_true (l : list (string * gmap string bool)) (p n : string) :
  tableLookup (list_to_map l) p n = true →
  ∃ set, (p, set) ∈ l ∧ set !! n = Some true.
Proof.
  unfold tableLookup.
  destruct (list_to_map l !! p) as [set|] eqn:Hp; [|done].
  intros Hn. exists set. split; [by apply elem_of_list_to_map_2|].
  destruct (set !! n) as [[]|]; done.
Qed.

Lemma names_lookup (l : list string) (n : string) (b : bool) :
  names l !! n = Some b → n ∈ l ∧ b = true.
Proof.
  unfold names. intros H. apply elem_of_list_to_map_2 in H.
  apply list_elem_of_fmap in H as (m & Heq & Hm). inversion Heq; subst. done.
Qed.

Lemma registration_fallback (tbl : gmap string (gmap string bool))
    (combined name : string) :
  existsb (λ '(pk, m),
    existsb (λ '(mn, _),
      HasSuffix combined (dotted pk mn) || HasSuffix name mn)
      (map_to_list (m : gmap string bool)))
    (map_to_list tbl) = true
  ↔ ∃ pk m mn b, tbl !! pk = Some m ∧ m !! mn = Some b
       ∧ (HasSuffix combined (dotted pk mn) || HasSuffix name mn) = true.
Proof.
  rewrite existsb_exists. split.
  - intros ([pk m] & Hin & Hex). apply existsb_exists in Hex as ([mn b] & Hin' & H).
    exists pk, m, mn, b. split_and!; [|
      |done].
    + apply elem_of_map_to_list. by apply list_elem_of_In.
    + apply elem_of_map_to_list. by apply list_elem_of_In.
  - intros (pk & m & mn & b & Hpk & Hmn & H). exists (pk, m). split.
    + apply list_elem_of_In. by apply elem_of_map_to_list.
    + apply existsb_exists. exists (mn, b). split; [|done].
      apply list_elem_of_In. by apply elem_of_map_to_list.
Qed.

Lemma no_dot_HandleFunc : "."%char ∉ chars "HandleFunc".
Proof. apply (bool_decide_unpack _). vm_compute. reflexivity. Qed.

Lemma no_dot_Handle : "."%char ∉ chars "Handle".
Proof. apply (bool_decide_unpack _). vm_compute. reflexivity. Qed.

(** The names of the registration table are [HandleFunc] and [Handle]. *)
Lemma entryRegistrations_names pk m mn b :
  entryRegistrations !! pk = Some m → m !! mn = Some b →
  mn = "HandleFunc"%string ∨ mn = "Handle"%string.
Proof.
  unfold entryRegistrations. intros Hpk Hmn.
  apply elem_of_list_to_map_2 in Hpk.
  assert (mn ∈ ["HandleFunc"; "Handle"]%string) as Hin.
  { repeat (apply elem_of_cons in Hpk as [Hpk|Hpk];
            [inversion Hpk; subst; by apply names_lookup in Hmn as [? _]|]).
    by apply elem_of_nil in Hpk. }
  repeat (apply elem_of_cons in Hin as [Hin|Hin]; [by auto|]).
  by apply elem_of_nil in Hin.
Qed.

Lemma isRegistrationFunction_closed fn :
  isRegistrationFunction fn
  = match Pkg fn with
    | Some _ => HasSuffix (Name fn) "HandleFunc" || HasSuffix (Name fn) "Handle"
    | None => false
    end.
Proof.
  unfold isRegistrationFunction, isRegistrationFunction_in.
  destruct (Pkg fn) as [path|]; [|done].
  apply eq_true_iff_eq. rewrite orb_true_iff. split.
  - destruct (tableLookup entryRegistrations path (Name fn)) eqn:Hl.
    + intros _. apply tableLookup_true in Hl as (set & Hset & Hn).
      assert (entryRegistrations !! path = Some set) as Hp.
      { unfold tableLookup in *. apply elem_of_list_to_map_1'; [|done].
        intros y Hy.
        repeat (apply elem_of_cons in Hset as [Hset|Hset];
                [inversion Hset; subst;
                 repeat (apply elem_of_cons in Hy as [Hy|Hy];
                         [by inversion Hy|]); by apply elem_of_nil in Hy|]).
        by apply elem_of_nil in Hset. }
      destruct (entryRegistrations_names _ _ _ _ Hp Hn) as [E|E]; rewrite E.
      * left. apply HasSuffix_spec. done.
      * right. apply HasSuffix_spec. done.
    + intros H. apply registration_fallback in H
        as (pk & m & mn & b & Hpk & Hmn & H).
      assert (HasSuffix (Name fn) mn = true) as Hs.
      { apply orb_true_iff in H as [H|H]; [|done].
        destruct (entryRegistrations_names _ _ _ _ Hpk Hmn) as [E|E]; subst mn.
        - by apply (HasSuffix_dotted path (Name fn) pk "HandleFunc" no_dot_HandleFunc).
        - by apply (HasSuffix_dotted path (Name fn) pk "Handle" no_dot_Handle). }
      destruct (entryRegistrations_names _ _ _ _ Hpk Hmn) as [E|E]; subst mn; auto.
  - intros Hs.
    destruct (tableLookup entryRegistrations path (Name fn)); [done|].
    apply registration_fallback.
    exists "net/http"%string, (names ["HandleFunc"; "Handle"]%string).
    destruct Hs as [Hs|Hs].
    + exists "HandleFunc"%string, true. split_and!; [done|done|].
      rewrite Hs. apply orb_true_r.
    + exists "Handle"%string, true. split_and!; [done|done|].
      rewrite Hs. apply orb_true_r.
Qed.

(** X1: [isRegistrationFunction] accepts exactly the functions that have a
    package and whose name ends in [HandleFunc] or [Handle]; the package
    path plays no part. *)
Theorem registration_is_by_name_suffix fn :
  isRegistrationFunction fn
  = match Pkg fn with
    | Some _ => HasSuffix (Name fn) "HandleFunc" || HasSuffix (Name fn) "Handle"
    | None => false
    end.
Proof. apply isRegistrationFunction_closed. Qed.

Lemma matchesExit_closed fn :
  matchesExit fn = true ↔ Pkg fn = Some "os"%string ∧ Name fn = "Exit"%string.
Proof.
  unfold matchesExit, matchesExit_in. destruct (Pkg fn) as [p|]; [|by split; [|intros []]].
  destruct (tableLookup exitFuncs p (Name fn)) eqn:Hl.
  - apply tableLookup_true in Hl as (set & Hset & Hn).
    apply list_elem_of_singleton in Hset. inversion Hset; subst.
    apply names_lookup in Hn as [Hn _]. apply list_elem_of_singleton in Hn.
    by rewrite Hn.
  - destruct (String.eqb_spec p "os") as [->|Hp]; simpl.
    + destruct (String.eqb_spec (Name fn) "Exit") as [->|Hn]; simpl; [done|].
      split; [done|]. by intros [_ ?].
    + split; [done|]. intros [E _]. by inversion E.
Qed.

(** X2: [matchesExit] accepts exactly [os.Exit]: the rule table and the
    fallback comparison name the same single function. *)
Theorem exit_is_os_Exit fn :
  matchesExit fn = true ↔ Pkg fn = Some "os"%string ∧ Name fn = "Exit"%string.
Proof. apply matchesExit_closed. Qed.

Definition readNames : list string :=
  ["Open"; "ReadFile"; "Query"; "QueryRow"; "Scan"; "Read"]%string.

Definition writeNames : list string :=
  ["Create"; "WriteFile"; "Exec"; "Write"; "WriteString"; "Encode";
   "Respond"; "Print"; "Printf"]%string.

(** Splits a membership in a list literal into its cases. *)
Ltac list_cases H :=
  repeat (apply elem_of_cons in H as [H|H]; [|]);
  [..|by apply elem_of_nil in H].

Lemma nameIn_elem n l : nameIn n l = true → n ∈ l.
Proof.
  unfold nameIn. rewrite existsb_exists. intros (x & Hx & He).
  apply String.eqb_eq in He. subst. by apply list_elem_of_In.
Qed.

Lemma matchesRead_names fn : matchesRead fn = true → Name fn ∈ readNames.
Proof.
  unfold matchesRead, matchesRead_in. destruct (Pkg fn) as [p|]; [|done].
  destruct (tableLookup readFuncs p (Name fn)) eqn:Hl.
  - intros _. apply tableLookup_true in Hl as (set & Hset & Hn).
    list_cases Hset; inversion Hset; subst;
      apply names_lookup in Hn as [Hn _]; list_cases Hn; rewrite Hn;
      unfold readNames; set_solver.
  - destruct (nameIn (Name fn) _) eqn:Hn; [|done]. intros _.
    apply nameIn_elem in Hn. list_cases Hn; rewrite Hn; unfold readNames; set_solver.
Qed.

Lemma matchesWrite_names fn : matchesWrite fn = true → Name fn ∈ writeNames.
Proof.
  unfold matchesWrite, matchesWrite_in. destruct (Pkg fn) as [p|]; [|done].
  destruct (tableLookup writeFuncs p (Name fn)) eqn:Hl.
  - intros _. apply tableLookup_true in Hl as (set & Hset & Hn).
    list_cases Hset; inversion Hset; subst;
      apply names_lookup in Hn as [Hn _]; list_cases Hn; rewrite Hn;
      unfold writeNames; set_solver.
  - destruct (nameIn (Name fn) _) eqn:Hn; [|done]. intros _.
    apply nameIn_elem in Hn. list_cases Hn; rewrite Hn; unfold writeNames; set_solver.
Qed.

Lemma isRegistrationFunction_suffix fn :
  isRegistrationFunction fn = true →
  HasSuffix (Name fn) "HandleFunc" || HasSuffix (Name fn) "Handle" = true.
Proof.
  rewrite isRegistrationFunction_closed. by destruct (Pkg fn).
Qed.

(** No two of the four tests accept the same function. *)
Lemma labels_exclusive fn :
  flag (isRegistrationFunction fn) + flag (matchesExit fn)
  + flag (matchesRead fn) + flag (matchesWrite fn) ≤ 1.
Proof.
  destruct (isRegistrationFunction fn) eqn:Hreg;
    destruct (matchesExit fn) eqn:Hexit;
    destruct (matchesRead fn) eqn:Hread;
    destruct (matchesWrite fn) eqn:Hwrite; simpl; try lia; exfalso;
    try apply isRegistrationFunction_suffix in Hreg;
    try apply matchesExit_closed in Hexit as [_ Hexit];
    try apply matchesRead_names in Hread;
    try apply matchesWrite_names in Hwrite.
  all: try (rewrite Hexit in *).
  all: try (list_cases Hread; rewrite Hread in *).
  all: try (list_cases Hwrite; rewrite Hwrite in *).
  all: try discriminate.
  all: try (vm_compute in Hreg; discriminate).
  all: try (unfold readNames, writeNames in *; set_solver).
Qed.

(** The four metrics of a local count, added up. *)
Definition countsTotal (c : Counts) : Z :=
  cEntries c + cExits c + cReads c + cWrites c.

Lemma countCall_total p c cc :
  countsTotal c ≤ countsTotal (countCall p c cc) ≤ countsTotal c + 1.
Proof.
  destruct (countCall_fields p c cc) as (E1 & E2 & E3 & E4).
  unfold countsTotal. rewrite E1, E2, E3, E4. unfold calleeHas.
  destruct (StaticCallee cc) as [sc|]; simpl; [|lia].
  pose proof (labels_exclusive (deref p sc)).
  pose proof (flag_nonneg (isRegistrationFunction (deref p sc))).
  pose proof (flag_nonneg (matchesExit (deref p sc))).
  pose proof (flag_nonneg (matchesRead (deref p sc))).
  pose proof (flag_nonneg (matchesWrite (deref p sc))).
  lia.
Qed.



Lemma countInstrs_total p l : ∀ c,
  countsTotal c ≤ countsTotal (foldl (countInstr p) c l)
    ≤ countsTotal c + Z.of_nat (length (omap calleeOf l)).
Proof.
  induction l as [|ins l IH]; intros c.
  - cbn. lia.
  - change (foldl (countInstr p) c (ins :: l))
      with (foldl (countInstr p) (countInstr p c ins) l).
    specialize (IH (countInstr p c ins)).
    assert (countsTotal c ≤ countsTotal (countInstr p c ins)
            ≤ countsTotal c + Z.of_nat (length (omap calleeOf [ins]))) as Hstep.
    { unfold countInstr, calleeOf.
      destruct ins as [cc|cc|cc|]; cbn; [..|lia];
        pose proof (countCall_total p c cc) as Ht;
        destruct (countCall_fields p c cc) as (E1 & E2 & E3 & E4);
        unfold calleeHas in *;
        destruct (StaticCallee cc) as [sc|]; cbn; [lia| |lia| |lia|];
        unfold countsTotal; simpl in *; lia. }
    change (ins :: l) with ([ins] ++ l). rewrite omap_app, length_app. lia.
Qed.

(** X4: the local count of a scanned function has no negative metric, and
    its four metrics together are at most the number of call instructions
    of the function that have a static callee. *)
Theorem local_counts_bounded p fn c :
  localCounts p !! fn = Some c →
  0 ≤ cEntries c ∧ 0 ≤ cExits c ∧ 0 ≤ cReads c ∧ 0 ≤ cWrites c
  ∧ countsTotal c ≤ Z.of_nat (length (staticCallees p fn)).
Proof.
  intros Hc. pose proof (localCounts_nonneg p fn) as Hnn.
  unfold countsAt in Hnn. rewrite Hc in Hnn. simpl in Hnn.
  destruct Hnn as (H1 & H2 & H3 & H4). split_and!; try done.
  rewrite localCounts_spec in Hc. case_decide; [|done]. inversion Hc; subst.
  unfold scanCounts, staticCallees.
  pose proof (countInstrs_total p (instrs (deref p fn)) zeroCounts) as Ht.
  change (countsTotal zeroCounts) with 0 in Ht. unfold calleeOf in Ht. lia.
Qed.

Lemma local_counts_bounded_witness :
  ∃ c, localCounts exampleProgram !! 0%nat = Some c
       ∧ countsTotal c ≤ Z.of_nat (length (staticCallees exampleProgram 0%nat)).
Proof.
  exists (scanCounts exampleProgram 0%nat).
  assert (H : localCounts exampleProgram !! 0%nat
              = Some (scanCounts exampleProgram 0%nat)) by (vm_compute; reflexivity).
  split; [exact H|].
  apply (local_counts_bounded exampleProgram 0%nat _ H).
Defined.

(** ** The entry set and the reports *)

Lemma handlersOf_elem p g x :
  x ∈ handlersOf p g ↔
  ∃ ins cc sc arg,
    ins ∈ instrs (deref p g) ∧ callCommonOf ins = Some cc
    ∧ StaticCallee cc = Some sc ∧ isRegistrationFunction (deref p sc) = true
    ∧ arg ∈ Args cc ∧ extractFunctionFromValue arg = Some x.
Proof.
  unfold handlersOf. rewrite list_elem_of_bind. split.
  - intros (ins & Hx & Hins). unfold handlersOfInstr in Hx.
    destruct (callCommonOf ins) as [cc|] eqn:Hcc; [|by apply elem_of_nil in Hx].
    unfold handlersOfCall, isRegistrationCall in Hx.
    destruct (StaticCallee cc) as [sc|] eqn:Hsc; [|by apply elem_of_nil in Hx].
    destruct (isRegistrationFunction (deref p sc)) eqn:Hreg;
      [|by apply elem_of_nil in Hx].
    apply list_elem_of_omap in Hx as (arg & Harg & Hex).
    by exists ins, cc, sc, arg.
  - intros (ins & cc & sc & arg & Hins & Hcc & Hsc & Hreg & Harg & Hex).
    exists ins. split; [|done].
    unfold handlersOfInstr, handlersOfCall, isRegistrationCall.
    rewrite Hcc, Hsc, Hreg. apply list_elem_of_omap. by exists arg.
Qed.

(** X5: the entry set holds exactly the member functions named [main] of
    package [main] and the functions that a registration call of a member
    function passes as an argument, directly or as a closure over them;
    registration calls in functions that are not package members add no
    entry. *)
Theorem entries_are_main_or_registered p x :
  x ∈ entryFuncsSet p ↔
  (x ∈ memberFuncs p ∧ Pkg (deref p x) = Some "main"%string
   ∧ Name (deref p x) = "main"%string)
  ∨ ∃ g ins cc sc arg,
      g ∈ memberFuncs p ∧ ins ∈ instrs (deref p g)
      ∧ callCommonOf ins = Some cc ∧ StaticCallee cc = Some sc
      ∧ isRegistrationFunction (deref p sc) = true
      ∧ arg ∈ Args cc ∧ extractFunctionFromValue arg = Some x.
Proof.
  rewrite entryFuncsSet_spec. unfold entriesOfMember, isMainMain. split.
  - intros (g & Hg & [[-> Hm]|Hh]).
    + left. destruct (Pkg (deref p g)) as [path|]; [|done].
      apply andb_true_iff in Hm as [H1 H2].
      apply String.eqb_eq in H1, H2. by subst.
    + right. apply handlersOf_elem in Hh
        as (ins & cc & sc & arg & H1 & H2 & H3 & H4 & H5 & H6).
      by exists g, ins, cc, sc, arg.
  - intros [(Hx & Hp & Hn)|(g & ins & cc & sc & arg & Hg & H)].
    + exists x. split; [done|]. left. split; [done|].
      by rewrite Hp, Hn.
    + exists g. split; [done|]. right. apply handlersOf_elem.
      by exists ins, cc, sc, arg.
Qed.

Lemma process_report_name p cg fn pr :
  traverseStatic p (localCounts p) fn = Done pr
  ∨ processPtr p cg (localCounts p) fn = Done pr →
  ∃ path, Pkg (deref p fn) = Some path
          ∧ PName pr = dotted path (Name (deref p fn))
          ∧ Source pr = String_ (deref p fn).
Proof.
  intros Hp.
  destruct (Pkg (deref p fn)) as [path|] eqn:Hpkg.
  - exists path. split; [done|].
    destruct (traverseStaticFrom_spec p (localCounts p) fn path Hpkg)
      as (reach & prS & Hrun & _ & HN & HS & _).
    assert (HstatN : ∀ pr', traverseStatic p (localCounts p) fn = Done pr' →
              PName pr' = dotted path (Name (deref p fn))
              ∧ Source pr' = String_ (deref p fn)).
    { intros pr'. unfold traverseStatic. rewrite Hrun. simpl.
      intros E. by inversion E; subst. }
    destruct Hp as [Hp|Hp]; [by apply HstatN|].
    unfold processPtr in Hp.
    destruct (funcToNode cg !! fn) as [node|]; [|by apply HstatN].
    destruct (traverseGraphFrom_spec p cg (localCounts p) fn node path Hpkg)
      as (visited & prP & Hrun' & _ & HN' & HS' & _).
    rewrite Hrun' in Hp. simpl in Hp. by inversion Hp; subst.
  - exfalso. destruct Hp as [Hp|Hp].
    + by rewrite (traverseStatic_nil p _ fn Hpkg) in Hp.
    + unfold processPtr in Hp. destruct (funcToNode cg !! fn) as [node|].
      * unfold traverseGraphFrom, newReport in Hp. by rewrite Hpkg in Hp.
      * by rewrite (traverseStatic_nil p _ fn Hpkg) in Hp.
Qed.

(** X6: a run that produces an output produces one report per entry of the
    entry set, named after the package path and name of the entry and
    carrying its [String()] as source; an entry found several times still
    gets one report. *)
Theorem one_report_per_entry p ptrMode analysis out :
  Runs p ptrMode analysis (Done out) →
  length (Processes out) = size (entryFuncsSet p)
  ∧ ∃ order, order ≡ₚ elements (entryFuncsSet p)
      ∧ Forall2 (λ fn pr,
           ∃ path, Pkg (deref p fn) = Some path
                   ∧ PName pr = dotted path (Name (deref p fn))
                   ∧ Source pr = String_ (deref p fn))
          order (Processes out).
Proof.
  intros (order & Hord & Hrun). unfold RunWith in Hrun.
  assert (Hf : Forall2 (λ fn pr,
           ∃ path, Pkg (deref p fn) = Some path
                   ∧ PName pr = dotted path (Name (deref p fn))
                   ∧ Source pr = String_ (deref p fn))
          order (Processes out)).
  { destruct ptrMode.
    - destruct analysis as [cg|]; [|done].
      destruct (aggregate_reports _ _ _ _ Hrun) as (prs & Heq & Hall).
      simpl in Heq. subst prs. eapply Forall2_impl; [exact Hall|].
      intros fn pr Hp. apply (process_report_name p cg). by right.
    - destruct (aggregate_reports _ _ _ _ Hrun) as (prs & Heq & Hall).
      simpl in Heq. subst prs. eapply Forall2_impl; [exact Hall|].
      intros fn pr Hp.
      apply (process_report_name p {| Nodes := []; nodeHeap := [] |}). by left. }
  split; [|by exists order].
  apply Forall2_length in Hf. rewrite <- Hf.
  unfold entryOrder in Hord. rewrite Hord. done.
Qed.

Lemma one_report_per_entry_witness :
  length (Processes exampleOutput) = size (entryFuncsSet exampleProgram).
Proof.
  apply (one_report_per_entry exampleProgram true (AnalyzeOk exampleGraph)).
  exists [0; 4; 8]%nat. split; [|vm_compute; reflexivity].
  unfold entryOrder.
  replace (elements (entryFuncsSet exampleProgram)) with [8; 4; 0]%nat
    by (vm_compute; reflexivity).
  apply (reverse_Permutation [8; 4; 0]%nat).
Defined.

(** X7: when the scan finds no entry (no member [main.main] and no
    registered handler), every run that does not stop on a failed pointer
    analysis produces the empty output: no report and all totals zero,
    whatever the local counts of the scanned functions are. *)
Theorem no_entry_no_report p ptrMode analysis r :
  entryFuncsSet p = ∅ →
  Runs p ptrMode analysis r →
  r = match ptrMode, analysis with
      | true, AnalyzeErr => Fatal
      | _, _ => Done emptyOutput
      end.
Proof.
  intros He (order & Hord & <-). unfold entryOrder in Hord.
  rewrite He, elements_empty in Hord. apply Permutation_nil_r in Hord. subst order.
  unfold RunWith. destruct ptrMode; [destruct analysis|]; done.
Qed.

(** A library package: one function that opens a file, no [main]. *)
Definition libraryProgram : Program :=
  {| funcs := [ mkFunction "example.com/lib" "Load" [callTo 1];
                mkFunction "os" "Open" [] ];
     ssaPkgs := [ {| Members := [MFunction 0%nat] |} ] |}.

Lemma no_entry_no_report_witness :
  cReads (countsAt (localCounts libraryProgram) 0%nat) = 1
  ∧ RunWith libraryProgram false AnalyzeErr [] = Done emptyOutput.
Proof.
  split; [vm_compute; reflexivity|].
  apply (no_entry_no_report libraryProgram false AnalyzeErr).
  - apply (bool_decide_unpack _). vm_compute. reflexivity.
  - exists []. split; [|reflexivity]. unfold entryOrder.
    replace (elements (entryFuncsSet libraryProgram)) with (@nil nat)
      by (vm_compute; reflexivity).
    done.
Defined.

(** X8: when some entry has no package (its [Pkg] field is nil), building
    the name of its report dereferences nil, so no run produces an output:
    every run panics, or stops on a failed pointer analysis before. *)
Theorem entry_without_package_panics p ptrMode analysis fn r :
  fn ∈ entryFuncsSet p →
  Pkg (deref p fn) = None →
  Runs p ptrMode analysis r →
  r = match ptrMode, analysis with
      | true, AnalyzeErr => Fatal
      | _, _ => NilDeref
      end.
Proof.
  intros Hfn Hpkg (order & Hord & <-). unfold entryOrder in Hord.
  assert (Hin : fn ∈ order) by (rewrite Hord; by apply elem_of_elements).
  unfold RunWith. destruct ptrMode.
  - destruct analysis as [cg|]; [|done].
    apply aggregate_nil_deref; [apply processPtr_outcome|].
    apply Exists_exists. exists fn. split; [done|].
    unfold processPtr. destruct (funcToNode cg !! fn) as [node|].
    + unfold traverseGraphFrom, newReport. by rewrite Hpkg.
    + by apply traverseStatic_nil.
  - apply aggregate_nil_deref; [apply traverseStatic_outcome|].
    apply Exists_exists. exists fn. split; [done|]. by apply traverseStatic_nil.
Qed.

(** [main.main] registers a handler that has no package, as a synthetic
    wrapper has. *)
Definition wrapperProgram : Program :=
  {| funcs := [ mkFunction "main" "main" [register (VMakeClosure (VFunction 1))];
                {| Pkg := None; Name := "handle$bound";
                   String_ := "(*main.server).handle$bound"; Blocks := [] |};
                mkFunction "main" "unused" [];
                mkFunction "net/http" "HandleFunc" [] ];
     ssaPkgs := [ {| Members := [MFunction 0%nat] |} ] |}.

Lemma entry_without_package_panics_witness :
  RunWith wrapperProgram false AnalyzeErr [0; 1]%nat = NilDeref.
Proof.
  apply (entry_without_package_panics wrapperProgram false AnalyzeErr 1%nat).
  - apply (bool_decide_unpack _). vm_compute. reflexivity.
  - reflexivity.
  - exists [0; 1]%nat. split; [|reflexivity]. unfold entryOrder.
    replace (elements (entryFuncsSet wrapperProgram)) with [1; 0]%nat
      by (vm_compute; reflexivity).
    apply Permutation_swap.
Defined.

(** ** The traversals *)

Lemma staticLoop_more_fuel p lcs fuel : ∀ k visited stack pr r,
  staticLoop p lcs fuel visited stack pr = Done r →
  staticLoop p lcs (fuel + k) visited stack pr = Done r.
Proof.
  induction fuel as [|fuel IH]; intros k visited stack pr r; simpl; [done|].
  destruct stack as [|n stack]; [done|]. case_decide; apply IH.
Qed.

Lemma bfsLoop_more_fuel cg lcs fuel : ∀ k visited queue pr r,
  bfsLoop cg lcs fuel visited queue pr = Done r →
  bfsLoop cg lcs (fuel + k) visited queue pr = Done r.
Proof.
  induction fuel as [|fuel IH]; intros k visited queue pr r; simpl; [done|].
  destruct queue as [|n queue]; [done|]. case_decide; apply IH.
Qed.

(** X9: both traversal loops end, cycles included: from any root the
    static loop has emptied its stack after at most two iterations more than
    there are call instructions with a static callee in the program, and the
    breadth-first loop its queue after at most two more than there are
    out-edges with a callee in the graph; a larger budget of iterations
    changes nothing. *)
Theorem traversals_terminate p cg lcs fn node pr0 fuel :
  (staticBudget p ≤ fuel)%nat →
  (bfsBudget cg ≤ fuel)%nat →
  (∃ r, staticLoop p lcs (staticBudget p) ∅ [fn] pr0 = Done r
        ∧ staticLoop p lcs fuel ∅ [fn] pr0 = Done r)
  ∧ (∃ r, bfsLoop cg lcs (bfsBudget cg) ∅ [node] pr0 = Done r
          ∧ bfsLoop cg lcs fuel ∅ [node] pr0 = Done r).
Proof.
  intros Hs Hb. split.
  - destruct (staticLoop_root p lcs fn pr0) as (order & Hrun & _).
    eexists. split; [exact Hrun|].
    replace fuel with (staticBudget p + (fuel - staticBudget p))%nat by lia.
    by apply staticLoop_more_fuel.
  - destruct (bfsLoop_root cg lcs node pr0) as (order & Hrun & _).
    eexists. split; [exact Hrun|].
    replace fuel with (bfsBudget cg + (fuel - bfsBudget cg))%nat by lia.
    by apply bfsLoop_more_fuel.
Qed.

Definition blankReport : ProcessReport :=
  {| PName := ""; Source := ""; Entries := 0; Exits := 0; Reads := 0;
     Writes := 0; Funcs := 0 |}.

Lemma traversals_terminate_witness :
  ∃ r, staticLoop exampleProgram ∅ (staticBudget exampleProgram) ∅ [0%nat]
         blankReport = Done r
       ∧ staticLoop exampleProgram ∅ (staticBudget exampleProgram + bfsBudget exampleGraph)
           ∅ [0%nat] blankReport = Done r.
Proof.
  destruct (traversals_terminate exampleProgram exampleGraph ∅ 0%nat 0%nat
              blankReport (staticBudget exampleProgram + bfsBudget exampleGraph))
    as [Hs _].
  - lia.
  - lia.
  - exact Hs.
Defined.

Lemma sumList_ge_elem (w : nat → Z) (l : list nat) (x : nat) :
  (∀ n, 0 ≤ w n) → x ∈ l → w x ≤ sumList w l.
Proof.
  intros Hw. induction l as [|y l IH]; intros Hx; [by apply elem_of_nil in Hx|].
  rewrite sumList_cons. apply elem_of_cons in Hx as [->|Hx].
  - pose proof (sumList_nonneg w l Hw). lia.
  - specialize (IH Hx). specialize (Hw y). lia.
Qed.

Lemma sumOver_ge_elem (w : nat → Z) (X : gset nat) (x : nat) :
  (∀ n, 0 ≤ w n) → x ∈ X → w x ≤ sumOver w X.
Proof.
  intros Hw Hx. apply sumList_ge_elem; [done|]. by apply elem_of_elements.
Qed.

Lemma sumOver_nonneg (w : nat → Z) (X : gset nat) :
  (∀ n, 0 ≤ w n) → 0 ≤ sumOver w X.
Proof. intros Hw. by apply sumList_nonneg. Qed.

Lemma nodeCounts_nonneg p cg n : nonnegCounts (nodeCounts cg (localCounts p) n).
Proof.
  unfold nodeCounts. destruct (Func (derefNode cg n)).
  - apply localCounts_nonneg.
  - unfold nonnegCounts. simpl. lia.
Qed.

Lemma nodeFuncs_nonneg cg n : 0 ≤ nodeFuncs cg n.
Proof. unfold nodeFuncs. destruct (Func (derefNode cg n)); lia. Qed.

(** The report of an entry has no negative field and counts at least the
    entry itself. *)
Lemma report_bounds p cg fn pr :
  traverseStatic p (localCounts p) fn = Done pr
  ∨ processPtr p cg (localCounts p) fn = Done pr →
  0 ≤ Entries pr ∧ 0 ≤ Exits pr ∧ 0 ≤ Reads pr ∧ 0 ≤ Writes pr ∧ 1 ≤ Funcs pr.
Proof.
  intros Hp.
  destruct (process_report_name p cg fn pr Hp) as (path & Hpkg & _).
  destruct (traverseStaticFrom_spec p (localCounts p) fn path Hpkg)
    as (reach & prS & Hrun & Hreach & _ & _ & (E1 & E2 & E3 & E4 & E5)).
  assert (Hstat : ∀ pr', traverseStatic p (localCounts p) fn = Done pr' →
    0 ≤ Entries pr' ∧ 0 ≤ Exits pr' ∧ 0 ≤ Reads pr' ∧ 0 ≤ Writes pr'
    ∧ 1 ≤ Funcs pr').
  { intros pr'. unfold traverseStatic. rewrite Hrun. simpl.
    intros E. inversion E; subst pr'. rewrite E1, E2, E3, E4, E5.
    split_and!; try (apply sumOver_nonneg; intros n; apply (localCounts_nonneg p n)).
    apply (sumOver_ge_elem (λ _, 1) reach fn); [lia|].
    apply Hreach. apply rtc_refl. }
  destruct Hp as [Hp|Hp]; [by apply Hstat|].
  unfold processPtr in Hp.
  destruct (funcToNode cg !! fn) as [node|] eqn:Hnode; [|by apply Hstat].
  destruct (funcToNode_Some _ _ _ Hnode) as [_ Hwrap].
  destruct (traverseGraphFrom_spec p cg (localCounts p) fn node path Hpkg)
    as (visited & prP & Hrun' & Hreach' & _ & _ & (F1 & F2 & F3 & F4 & F5)).
  rewrite Hrun' in Hp. simpl in Hp. inversion Hp; subst pr.
  rewrite F1, F2, F3, F4, F5.
  split_and!; try (apply sumOver_nonneg; intros n; apply (nodeCounts_nonneg p cg n)).
  replace 1 with (nodeFuncs cg node) by (unfold nodeFuncs; by rewrite Hwrap).
  apply (sumOver_ge_elem (nodeFuncs cg) visited node); [apply nodeFuncs_nonneg|].
  apply Hreach'. apply rtc_refl.
Qed.

Lemma Forall2_Forall_right {A B} (R : A → B → Prop) (Q : B → Prop) l k :
  Forall2 R l k → (∀ a b, R a b → Q b) → Forall Q k.
Proof.
  intros H HRQ. induction H as [|a b l k Hab _ IH]; constructor; eauto.
Qed.

Lemma sumOf_nonneg (f : ProcessReport → Z) (l : list ProcessReport) :
  Forall (λ pr, 0 ≤ f pr) l → 0 ≤ sumOf f l.
Proof. induction 1 as [|pr l Hpr _ IH]; simpl; lia. Qed.

(** X10: in every output, no metric of a report and no total is negative,
    and every report includes at least one function, the entry itself. *)
Theorem reports_are_nonnegative p ptrMode analysis out :
  Runs p ptrMode analysis (Done out) →
  Forall (λ pr, 0 ≤ Entries pr ∧ 0 ≤ Exits pr ∧ 0 ≤ Reads pr ∧ 0 ≤ Writes pr
                ∧ 1 ≤ Funcs pr) (Processes out)
  ∧ 0 ≤ TotalEntries out ∧ 0 ≤ TotalExits out
  ∧ 0 ≤ TotalReads out ∧ 0 ≤ TotalWrites out.
Proof.
  intros (order & Hord & Hrun). unfold RunWith in Hrun.
  assert (Hc : totalsConsistent emptyOutput) by (by unfold totalsConsistent).
  assert (Hf : Forall (λ pr, 0 ≤ Entries pr ∧ 0 ≤ Exits pr ∧ 0 ≤ Reads pr
                 ∧ 0 ≤ Writes pr ∧ 1 ≤ Funcs pr) (Processes out)
               ∧ totalsConsistent out).
  { destruct ptrMode.
    - destruct analysis as [cg|]; [|done].
      split; [|by eapply aggregate_consistent].
      destruct (aggregate_reports _ _ _ _ Hrun) as (prs & Heq & Hall).
      simpl in Heq. subst prs. eapply Forall2_Forall_right; [exact Hall|].
      intros fn pr Hp. apply (report_bounds p cg fn). by right.
    - split; [|by eapply aggregate_consistent].
      destruct (aggregate_reports _ _ _ _ Hrun) as (prs & Heq & Hall).
      simpl in Heq. subst prs. eapply Forall2_Forall_right; [exact Hall|].
      intros fn pr Hp.
      apply (report_bounds p {| Nodes := []; nodeHeap := [] |} fn). by left. }
  destruct Hf as [Hf (T1 & T2 & T3 & T4)]. split; [done|].
  rewrite T1, T2, T3, T4.
  split_and!; apply sumOf_nonneg; eapply Forall_impl; try exact Hf;
    simpl; intros pr (? & ? & ? & ? & ?); done.
Qed.

Lemma reports_are_nonnegative_witness :
  Forall (λ pr, 0 ≤ Entries pr ∧ 0 ≤ Exits pr ∧ 0 ≤ Reads pr ∧ 0 ≤ Writes pr
                ∧ 1 ≤ Funcs pr) (Processes exampleOutput)
  ∧ 0 ≤ TotalEntries exampleOutput ∧ 0 ≤ TotalExits exampleOutput
  ∧ 0 ≤ TotalReads exampleOutput ∧ 0 ≤ TotalWrites exampleOutput.
Proof.
  apply (reports_are_nonnegative exampleProgram true (AnalyzeOk exampleGraph)).
  exists [0; 4; 8]%nat. split; [|vm_compute; reflexivity].
  unfold entryOrder.
  replace (elements (entryFuncsSet exampleProgram)) with [8; 4; 0]%nat
    by (vm_compute; reflexivity).
  apply (reverse_Permutation [8; 4; 0]%nat).
Defined.

Lemma aggregate_ext_in (f g : nat → Outcome ProcessReport) order : ∀ out,
  (∀ fn, fn ∈ order → f fn = g fn) →
  aggregate f order out = aggregate g order out.
Proof.
  induction order as [|fn order IH]; intros out Hfg; simpl; [done|].
  rewrite (Hfg fn) by (by apply elem_of_cons; left).
  destruct (g fn); simpl; try done.
  apply IH. intros x Hx. apply Hfg. by apply elem_of_cons; right.
Qed.

(** X11: in pointer mode, when no node of the call graph wraps any of the
    entries (as with an empty graph), the run is the static run: same
    reports, same totals, same failures. *)
Theorem pointer_mode_without_nodes p cg analysis order :
  (∀ fn n, fn ∈ order → n ∈ Nodes cg → Func (derefNode cg n) ≠ Some fn) →
  RunWith p true (AnalyzeOk cg) order = RunWith p false analysis order.
Proof.
  intros Hno. unfold RunWith. apply aggregate_ext_in. intros fn Hfn.
  unfold processPtr.
  assert (funcToNode cg !! fn = None) as ->; [|done].
  apply funcToNode_None. intros n Hn. by apply Hno.
Qed.

Lemma pointer_mode_without_nodes_witness :
  RunWith exampleProgram true (AnalyzeOk {| Nodes := []; nodeHeap := [] |})
    [0; 4; 8]%nat
  = RunWith exampleProgram false AnalyzeErr [0; 4; 8]%nat.
Proof.
  apply (pointer_mode_without_nodes exampleProgram
           {| Nodes := []; nodeHeap := [] |} AnalyzeErr).
  intros fn n _ Hn. simpl in Hn. by apply elem_of_nil in Hn.
Defined.

Lemma sumOver_subseteq (w : nat → Z) (X Y : gset nat) :
  (∀ n, 0 ≤ w n) → X ⊆ Y → sumOver w X ≤ sumOver w Y.
Proof.
  intros Hw Hsub. apply (sumOver_inject w w Some); [done|done|].
  intros f Hf. exists f. split; [by apply Hsub|done].
Qed.

(** X12: in static mode, when the function of one entry is reachable from
    another entry, every field of the report of the reaching entry is at
    least the corresponding field of the report of the reached one. *)
Theorem reaching_entry_dominates p a b pa pb :
  Pkg (deref p a) = Some pa →
  Pkg (deref p b) = Some pb →
  staticReach p a b →
  ∃ ra rb,
    traverseStatic p (localCounts p) a = Done ra
    ∧ traverseStatic p (localCounts p) b = Done rb
    ∧ Entries rb ≤ Entries ra ∧ Exits rb ≤ Exits ra ∧ Reads rb ≤ Reads ra
    ∧ Writes rb ≤ Writes ra ∧ Funcs rb ≤ Funcs ra.
Proof.
  intros Ha Hb Hab.
  destruct (traverseStaticFrom_spec p (localCounts p) a pa Ha)
    as (reachA & ra & HrunA & HreachA & _ & _ & (A1 & A2 & A3 & A4 & A5)).
  destruct (traverseStaticFrom_spec p (localCounts p) b pb Hb)
    as (reachB & rb & HrunB & HreachB & _ & _ & (B1 & B2 & B3 & B4 & B5)).
  exists ra, rb. unfold traverseStatic. rewrite HrunA, HrunB. simpl.
  assert (Hsub : reachB ⊆ reachA).
  { intros g Hg. apply HreachA. apply HreachB in Hg.
    unfold staticReach in *. by etrans. }
  rewrite A1, A2, A3, A4, A5, B1, B2, B3, B4, B5.
  split_and!; try done; apply sumOver_subseteq; try done;
    try (intros n; apply (localCounts_nonneg p n)); intros; lia.
Qed.

Lemma reaching_entry_dominates_witness :
  ∃ ra rb,
    traverseStatic exampleProgram (localCounts exampleProgram) 0%nat = Done ra
    ∧ traverseStatic exampleProgram (localCounts exampleProgram) 5%nat = Done rb
    ∧ Entries rb ≤ Entries ra ∧ Exits rb ≤ Exits ra ∧ Reads rb ≤ Reads ra
    ∧ Writes rb ≤ Writes ra ∧ Funcs rb ≤ Funcs ra.
Proof.
  apply (reaching_entry_dominates exampleProgram 0%nat 5%nat "main" "main").
  - reflexivity.
  - reflexivity.
  - apply (rtc_l _ _ 1%nat).
    + unfold staticEdge. apply (bool_decide_unpack _). vm_compute. reflexivity.
    + apply rtc_once. unfold staticEdge.
      apply (bool_decide_unpack _). vm_compute. reflexivity.
Defined.







(** ** The command line of the SSA analyser *)

(** [strings.HasPrefix]. *)
Definition HasPrefix (s prefix : string) : bool := String.prefix prefix s.

(** [strings.Contains]: [substr] occurs in [s] at some position. *)
Fixpoint Contains (s substr : string) : bool :=
  String.prefix substr s
  || match s with
     | EmptyString => false
     | String _ s' => Contains s' substr
     end.

Lemma prefix_spec (a b : string) :
  String.prefix a b = true ↔ chars a `prefix_of` chars b.
Proof.
  revert b. induction a as [|c a IH]; intros b.
  - destruct b; simpl; split; try done; intros _; apply prefix_nil.
  - destruct b as [|d b]; simpl.
    + split; [done|]. intros [k Hk]. done.
    + destruct (Ascii.ascii_dec c d) as [->|Hne].
      * rewrite IH. split.
        -- intros [k Hk]. exists k. simpl. by rewrite Hk.
        -- intros [k Hk]. exists k. simpl in Hk. by inversion Hk.
      * split; [done|]. intros [k Hk]. simpl in Hk. inversion Hk. done.
Qed.

Lemma Contains_spec (s t : string) :
  Contains s t = true ↔ ∃ u v, chars s = u ++ chars t ++ v.
Proof.
  induction s as [|c s IH].
  - cbn [Contains]. rewrite orb_false_r, prefix_spec. split.
    + intros [k Hk]. exists [], k. done.
    + intros (u & v & H). simpl in H. symmetry in H.
      apply app_eq_nil in H as [-> H]. apply app_eq_nil in H as [H ->].
      rewrite H. by exists [].
  - cbn [Contains]. rewrite orb_true_iff, prefix_spec, IH. split.
    + intros [[k Hk]|(u & v & H)].
      * exists [], k. done.
      * exists (c :: u), v. simpl. by rewrite H.
    + intros (u & v & H). destruct u as [|d u].
      * left. exists v. done.
      * right. simpl in H. inversion H. by exists u, v.
Qed.

(** Occurrence is transitive. *)
Lemma Contains_trans (s a b : string) :
  Contains s a = true → Contains a b = true → Contains s b = true.
Proof.
  rewrite !Contains_spec. intros (u & v & Hs) (u' & v' & Ha).
  exists (u ++ u'), (v' ++ v). rewrite Hs, Ha. by rewrite <- !app_assoc.
Qed.

Lemma HasPrefix_Contains (s a : string) :
  HasPrefix s a = true → Contains s a = true.
Proof.
  unfold HasPrefix. rewrite prefix_spec, Contains_spec.
  intros [k Hk]. by exists [], k.
Qed.

(** The package pattern and the directory handed to [packages.Load], from
    the first argument; [abs] is the result of [filepath.Abs(root)], [None]
    when it fails. *)
Definition loadTarget (root : string) (abs : option string) : string * string :=
  if negb (HasPrefix root "./") && negb (Contains root "/")
     && negb (Contains root ".")
  then (root, ""%string)
  else ("./..."%string, default root abs).

(** X14: the argument is passed on as a package pattern, with no directory,
    exactly when it contains neither a slash nor a dot (the test for a
    leading [./] changes nothing); any other argument, an import path with
    slashes included, is loaded as a directory with the pattern [./...]. *)
Theorem load_target_by_slash_and_dot root abs :
  loadTarget root abs
  = if negb (Contains root "/") && negb (Contains root ".")
    then (root, ""%string)
    else ("./..."%string, default root abs).
Proof.
  unfold loadTarget. destruct (HasPrefix root "./") eqn:Hp; simpl; [|done].
  assert (Contains root "." = true) as ->.
  { apply (Contains_trans root "./" "."); [by apply HasPrefix_Contains|done]. }
  by rewrite andb_false_r.
Qed.

(** ** The syntactic scanner (second program of the file)

    The scanner walks a directory, parses every [.go] file and classifies
    each call expression by fragments of its dotted name.  A parsed file is
    the list of the nodes that [ast.Inspect] visits; the callback always
    returns [true], so every node is visited. *)
Module AstScan.

(** [ast.Expr] as far as [getCallName] inspects it; [Sel] is [e.Sel.Name]. *)
Inductive Expr :=
  | Ident (Name : string)
  | SelectorExpr (X : Expr) (Sel : string)
  | OtherExpr.

Inductive Node :=
  | CallExpr (Fun : Expr)
  | OtherNode.

Record Result := {
  Entries : Z; Exits : Z; Reads : Z; Writes : Z
}.

Definition entryFuncs : list string :=
  ["http.HandleFunc"; "ListenAndServe"; "Run"; "Serve"]%string.

Definition readFuncs : list string :=
  ["os.Open"; "os.ReadFile"; "Read"; "Query"; "Scan"]%string.

Definition writeFuncs : list string :=
  ["os.Create"; "os.WriteFile"; "Write"; "Print"; "Printf"; "Encode";
   "Respond"]%string.

Fixpoint getCallName (expr : Expr) : string :=
  match expr with
  | SelectorExpr x sel => getCallName x +:+ "." +:+ sel
  | Ident name => name
  | OtherExpr => ""
  end.

(** [for _, f := range fs { if strings.Contains(name, f) { n++ } }]. *)
Definition countContains (name : string) (fs : list string) (n : Z) : Z :=
  foldl (λ n f, if Contains name f then n + 1 else n) n fs.

(** The callback of [ast.Inspect]. *)
Definition inspect (result : Result) (n : Node) : Result :=
  match n with
  | CallExpr fn =>
      let name := getCallName fn in
      {| Entries := countContains name entryFuncs (Entries result);
         Reads := countContains name readFuncs (Reads result);
         Writes := countContains name writeFuncs (Writes result);
         Exits := if Contains name "os.Exit" then Exits result + 1
                  else Exits result |}
  | OtherNode => result
  end.

(** What [filepath.Walk] hands to its callback for one path: the path, whether
    the walk reported an error for it, and the result of [parser.ParseFile],
    [None] when it fails. *)
Record File := {
  path : string;
  walkErr : bool;
  parsed : option (list Node)
}.

Definition visitFile (result : Result) (f : File) : Result :=
  if walkErr f || negb (HasSuffix (path f) ".go") then result
  else match parsed f with
       | None => result
       | Some nodes => foldl inspect result nodes
       end.

Definition zero : Result :=
  {| Entries := 0; Exits := 0; Reads := 0; Writes := 0 |}.

(** The walk over the files of the root, in the order of the walk. *)
Definition scan (files : list File) : Result := foldl visitFile zero files.

Definition add (a b : Result) : Result :=
  {| Entries := Entries a + Entries b; Exits := Exits a + Exits b;
     Reads := Reads a + Reads b; Writes := Writes a + Writes b |}.

(** The number of fragments of [fs] that occur in [name]. *)
Definition occurring (name : string) (fs : list string) : Z :=
  Z.of_nat (length (filter (λ f, Contains name f = true) fs)).

Lemma countContains_occurring name fs : ∀ n,
  countContains name fs n = n + occurring name fs.
Proof.
  unfold countContains, occurring.
  induction fs as [|f fs IH]; intros n; [cbn; lia|].
  cbn [foldl]. rewrite IH, filter_cons.
  destruct (Contains name f) eqn:Hc.
  - rewrite decide_True by done. cbn [length]. lia.
  - rewrite decide_False by done. lia.
Qed.

Lemma occurring_two name fs a b :
  a ≠ b → a ∈ fs → b ∈ fs →
  Contains name a = true → Contains name b = true → 2 ≤ occurring name fs.
Proof.
  intros Hab Ha Hb Hca Hcb. unfold occurring.
  assert ([a; b] ⊆+ filter (λ f, Contains name f = true) fs) as Hsub.
  { apply NoDup_submseteq.
    - apply NoDup_cons. split; [by rewrite list_elem_of_singleton|].
      apply NoDup_singleton.
    - intros x Hx. apply list_elem_of_filter.
      apply elem_of_cons in Hx as [->|Hx]; [done|].
      apply list_elem_of_singleton in Hx as ->. done. }
  apply submseteq_length in Hsub. simpl in Hsub. lia.
Qed.

Lemma occurring_bounds name fs : 0 ≤ occurring name fs ≤ Z.of_nat (length fs).
Proof.
  unfold occurring. pose proof (length_filter (λ f, Contains name f = true) fs). lia.
Qed.

(** X15: a call adds to Entries, Reads and Writes the number of fragments of
    the category that occur in its name, so one call can count more than
    once: at least twice as an entry when its name contains
    [ListenAndServe], as a read when it contains [os.ReadFile], and as a
    write when it contains [Printf] or [os.WriteFile]; it never counts more
    than four, five and seven times. *)
Theorem fragments_count_separately r fn :
  let name := getCallName fn in
  let r' := inspect r (CallExpr fn) in
  Entries r' = Entries r + occurring name entryFuncs
  ∧ Reads r' = Reads r + occurring name readFuncs
  ∧ Writes r' = Writes r + occurring name writeFuncs
  ∧ occurring name entryFuncs ≤ 4 ∧ occurring name readFuncs ≤ 5
  ∧ occurring name writeFuncs ≤ 7
  ∧ (Contains name "ListenAndServe" = true → Entries r + 2 ≤ Entries r')
  ∧ (Contains name "os.ReadFile" = true → Reads r + 2 ≤ Reads r')
  ∧ (Contains name "Printf" = true ∨ Contains name "os.WriteFile" = true →
     Writes r + 2 ≤ Writes r').
Proof.
  intros name r'. subst r'. cbn [inspect Entries Reads Writes]. fold name.
  rewrite !countContains_occurring.
  pose proof (occurring_bounds name entryFuncs).
  pose proof (occurring_bounds name readFuncs).
  pose proof (occurring_bounds name writeFuncs).
  split_and!; try done; try (simpl in *; lia).
  - intros Hc.
    pose proof (occurring_two name entryFuncs "ListenAndServe" "Serve") as H2.
    assert (Contains name "Serve" = true)
      by (by apply (Contains_trans name "ListenAndServe")).
    unfold entryFuncs in H2 at 1 2.
    specialize (H2 ltac:(done) ltac:(set_solver) ltac:(set_solver) Hc ltac:(done)).
    lia.
  - intros Hc.
    pose proof (occurring_two name readFuncs "os.ReadFile" "Read") as H2.
    assert (Contains name "Read" = true)
      by (by apply (Contains_trans name "os.ReadFile")).
    unfold readFuncs in H2 at 1 2.
    specialize (H2 ltac:(done) ltac:(set_solver) ltac:(set_solver) Hc ltac:(done)).
    lia.
  - intros [Hc|Hc].
    + pose proof (occurring_two name writeFuncs "Printf" "Print") as H2.
      assert (Contains name "Print" = true)
        by (by apply (Contains_trans name "Printf")).
      unfold writeFuncs in H2 at 1 2.
      specialize (H2 ltac:(done) ltac:(set_solver) ltac:(set_solver) Hc ltac:(done)).
      lia.
    + pose proof (occurring_two name writeFuncs "os.WriteFile" "Write") as H2.
      assert (Contains name "Write" = true)
        by (by apply (Contains_trans name "os.WriteFile")).
      unfold writeFuncs in H2 at 1 2.
      specialize (H2 ltac:(done) ltac:(set_solver) ltac:(set_solver) Hc ltac:(done)).
      lia.
Qed.

(** The selector chain [base.s1.s2...]. *)
Definition chain (base : Expr) (sels : list string) : Expr :=
  foldl SelectorExpr base sels.

Lemma getCallName_chain sels : ∀ base,
  getCallName (chain base sels)
  = foldl (λ name sel, name +:+ "." +:+ sel) (getCallName base) sels.
Proof.
  unfold chain. induction sels as [|sel sels IH]; intros base; [done|].
  cbn [foldl]. by rewrite IH.
Qed.

(** X16: the name of a chain of selectors is the name of its base followed
    by each selector after a dot; a base that is not an identifier (a call,
    an index, a literal) has the empty name, so the name then starts with a
    dot and the call is still classified by its selectors. *)
Theorem call_name_of_chain base sels :
  getCallName (chain (Ident base) sels)
  = foldl (λ name sel, name +:+ "." +:+ sel) base sels
  ∧ getCallName (chain OtherExpr sels)
    = foldl (λ name sel, name +:+ "." +:+ sel) ""%string sels
  ∧ ∀ x sel f, Contains sel f = true →
               Contains (getCallName (SelectorExpr x sel)) f = true.
Proof.
  split_and!; [apply getCallName_chain|apply getCallName_chain|].
  intros x sel f Hc. cbn [getCallName].
  apply Contains_spec in Hc as (u & v & Hc). apply Contains_spec.
  exists (chars (getCallName x) ++ "."%char :: u), v.
  rewrite !chars_app, Hc. simpl. by rewrite <- !app_assoc.
Qed.

Lemma inspect_add r n : inspect r n = add r (inspect zero n).
Proof.
  destruct n as [fn|]; cbn [inspect add zero Entries Exits Reads Writes].
  - rewrite !countContains_occurring.
    destruct (Contains (getCallName fn) "os.Exit"); unfold add; cbn; f_equal; lia.
  - destruct r; unfold add; cbn. f_equal; lia.
Qed.

Lemma add_assoc a b c : add (add a b) c = add a (add b c).
Proof. unfold add; cbn. f_equal; lia. Qed.

Lemma add_zero_r a : add a zero = a.
Proof. destruct a; unfold add; cbn. f_equal; lia. Qed.

Lemma inspect_nodes_add nodes : ∀ r,
  foldl inspect r nodes = add r (foldl inspect zero nodes).
Proof.
  induction nodes as [|n nodes IH]; intros r; cbn [foldl].
  - by rewrite add_zero_r.
  - rewrite IH, (IH (inspect zero n)), (inspect_add r n). by rewrite add_assoc.
Qed.

Lemma visitFile_add r f : visitFile r f = add r (visitFile zero f).
Proof.
  unfold visitFile. destruct (walkErr f || negb (HasSuffix (path f) ".go")).
  - by rewrite add_zero_r.
  - destruct (parsed f) as [nodes|]; [apply inspect_nodes_add|by rewrite add_zero_r].
Qed.

Lemma scan_from files : ∀ r, foldl visitFile r files = add r (scan files).
Proof.
  unfold scan. induction files as [|f files IH]; intros r; cbn [foldl].
  - by rewrite add_zero_r.
  - rewrite IH, (IH (visitFile zero f)), (visitFile_add r f). by rewrite add_assoc.
Qed.

(** X17: the result of a walk is the field-wise sum of the results of its
    parts, and a path for which the walk reports an error, whose name does
    not end in [.go], or whose file does not parse adds nothing. *)
Theorem scan_adds_up files1 files2 f :
  scan (files1 ++ files2) = add (scan files1) (scan files2)
  ∧ (walkErr f = true ∨ HasSuffix (path f) ".go" = false ∨ parsed f = None →
     scan (files1 ++ f :: files2) = scan (files1 ++ files2)).
Proof.
  assert (Happ : ∀ l k, scan (l ++ k) = add (scan l) (scan k)).
  { intros l k. unfold scan at 1. rewrite foldl_app. apply scan_from. }
  split; [apply Happ|]. intros Hskip.
  rewrite !Happ. f_equal. change (f :: files2) with ([f] ++ files2).
  rewrite Happ. replace (scan [f]) with zero.
  - destruct (scan files2); unfold add; cbn. f_equal; lia.
  - unfold scan, visitFile. cbn [foldl].
    destruct Hskip as [-> | [-> | ->]]; [done|by rewrite orb_true_r|].
    by destruct (walkErr f || negb (HasSuffix (path f) ".go")).
Qed.

Lemma fragments_count_separately_witness :
  Writes (inspect zero (CallExpr (SelectorExpr (Ident "fmt") "Printf"))) = 2.
Proof.
  pose proof (fragments_count_separately zero (SelectorExpr (Ident "fmt") "Printf"))
    as (_ & _ & Hw & _).
  rewrite Hw. vm_compute. reflexivity.
Defined.

Lemma call_name_of_chain_witness :
  getCallName (chain (Ident "a") ["b"; "c"]%string) = "a.b.c"%string
  ∧ Contains (getCallName (SelectorExpr OtherExpr "Write")) "Write" = true.
Proof.
  destruct (call_name_of_chain "a" ["b"; "c"]%string) as (H1 & _ & H3).
  split; [rewrite H1; reflexivity|]. apply H3. vm_compute. reflexivity.
Defined.

Lemma scan_adds_up_witness :
  scan ([] ++ {| path := "notes.txt"; walkErr := false;
                 parsed := Some [CallExpr (Ident "Read")] |} :: [])
  = scan ([] ++ []).
Proof.
  destruct (scan_adds_up [] []
              {| path := "notes.txt"; walkErr := false;
                 parsed := Some [CallExpr (Ident "Read")] |}) as [_ H].
  apply H. right. left. vm_compute. reflexivity.
Defined.

End AstScan.

(** ** The scanner by name hints ([go_cosmic_ast.go])

    Here a call is named by [callName], which looks one selector deep, and
    each category has a list of hints; a call counts once per category. *)
Module AstHints.

Inductive Node :=
  | FuncDecl (Name : string)
  | CallExpr (Fun : AstScan.Expr)
  | OtherNode.

Record Result := {
  Entries : Z; Exits : Z; Reads : Z; Writes : Z
}.

Definition callName (fn : AstScan.Expr) : string :=
  match fn with
  | AstScan.SelectorExpr (AstScan.Ident x) sel => x +:+ "." +:+ sel
  | AstScan.SelectorExpr _ _ => ""
  | AstScan.Ident name => name
  | AstScan.OtherExpr => ""
  end.

Definition isEntry (n : Node) : bool :=
  match n with
  | FuncDecl name => String.eqb name "main"
  | CallExpr fn =>
      let name := callName fn in
      Contains name "Handle" || Contains name "ListenAndServe"
      || Contains name "Run" || Contains name "Serve"
  | OtherNode => false
  end.

Definition readHints : list string :=
  ["Open"; "Read"; "ReadAll"; "Get"; "Do"; "Query"; "QueryRow"; "Scan";
   "Decode"; "Find"; "First"; "Args"; "Env"]%string.

Definition writeHints : list string :=
  ["Write"; "Create"; "Post"; "Put"; "Exec"; "Encode"; "Save"; "Update";
   "Printf"; "Fprintf"]%string.

Definition exitHints : list string :=
  ["Write"; "Print"; "Fatal"; "Exit"; "Respond"; "Send"; "ServeHTTP"]%string.

Definition isRead (name : string) : bool := existsb (Contains name) readHints.
Definition isWrite (name : string) : bool := existsb (Contains name) writeHints.
Definition isExit (name : string) : bool := existsb (Contains name) exitHints.

(** The callback of [ast.Inspect]. *)
Definition inspect (result : Result) (n : Node) : Result :=
  let result :=
    if isEntry n
    then {| Entries := Entries result + 1; Exits := Exits result;
            Reads := Reads result; Writes := Writes result |}
    else result in
  match n with
  | CallExpr fn =>
      let name := callName fn in
      {| Entries := Entries result;
         Reads := if isRead name then Reads result + 1 else Reads result;
         Writes := if isWrite name then Writes result + 1 else Writes result;
         Exits := if isExit name then Exits result + 1 else Exits result |}
  | _ => result
  end.

Lemma existsb_hint (name h : string) (hints : list string) :
  h ∈ hints → Contains name h = true → existsb (Contains name) hints = true.
Proof.
  intros Hin Hc. apply existsb_exists. exists h.
  split; [by apply list_elem_of_In|done].
Qed.

(** X18: a call whose name contains [Write] or [Printf] is both a write
    and an exit: it adds one to Writes and one to Exits. *)
Theorem write_is_also_exit r fn :
  Contains (callName fn) "Write" = true
  ∨ Contains (callName fn) "Printf" = true →
  isWrite (callName fn) = true ∧ isExit (callName fn) = true
  ∧ Writes (inspect r (CallExpr fn)) = Writes r + 1
  ∧ Exits (inspect r (CallExpr fn)) = Exits r + 1.
Proof.
  intros H.
  assert (Hw : isWrite (callName fn) = true).
  { destruct H as [H|H].
    - apply (existsb_hint _ "Write"); [unfold writeHints; set_solver|done].
    - apply (existsb_hint _ "Printf"); [unfold writeHints; set_solver|done]. }
  assert (He : isExit (callName fn) = true).
  { destruct H as [H|H].
    - apply (existsb_hint _ "Write"); [unfold exitHints; set_solver|done].
    - apply (existsb_hint _ "Print"); [unfold exitHints; set_solver|].
      apply (Contains_trans _ "Printf"); [done|vm_compute; reflexivity]. }
  split_and!; try done.
  - cbn [inspect Writes]. rewrite Hw. by destruct (isEntry (CallExpr fn)).
  - cbn [inspect Exits]. rewrite He. by destruct (isEntry (CallExpr fn)).
Qed.

Lemma write_is_also_exit_witness :
  Writes (inspect {| Entries := 0; Exits := 0; Reads := 0; Writes := 0 |}
            (CallExpr (AstScan.SelectorExpr (AstScan.Ident "fmt") "Printf"))) = 0 + 1
  ∧ Exits (inspect {| Entries := 0; Exits := 0; Reads := 0; Writes := 0 |}
             (CallExpr (AstScan.SelectorExpr (AstScan.Ident "fmt") "Printf"))) = 0 + 1.
Proof.
  destruct (write_is_also_exit {| Entries := 0; Exits := 0; Reads := 0; Writes := 0 |}
              (AstScan.SelectorExpr (AstScan.Ident "fmt") "Printf"))
    as (_ & _ & Hw & He).
  - right. vm_compute. reflexivity.
  - split; [exact Hw|exact He].
Defined.

(** The function expressions that [callName] names: an identifier, or a
    selector on an identifier. *)
Definition named (fn : AstScan.Expr) : bool :=
  match fn with
  | AstScan.Ident _ | AstScan.SelectorExpr (AstScan.Ident _) _ => true
  | _ => false
  end.

(** X19: a node adds at most one to each of the four counts, and a call
    whose function expression is neither an identifier nor a selector on an
    identifier (a method of a field, of a call result, ...) adds nothing. *)
Theorem unnamed_calls_count_nothing r n :
  Entries r ≤ Entries (inspect r n) ≤ Entries r + 1
  ∧ Exits r ≤ Exits (inspect r n) ≤ Exits r + 1
  ∧ Reads r ≤ Reads (inspect r n) ≤ Reads r + 1
  ∧ Writes r ≤ Writes (inspect r n) ≤ Writes r + 1
  ∧ ∀ fn, n = CallExpr fn → named fn = false → inspect r n = r.
Proof.
  assert (Hstep : Entries r ≤ Entries (inspect r n) ≤ Entries r + 1
                  ∧ Exits r ≤ Exits (inspect r n) ≤ Exits r + 1
                  ∧ Reads r ≤ Reads (inspect r n) ≤ Reads r + 1
                  ∧ Writes r ≤ Writes (inspect r n) ≤ Writes r + 1).
  { destruct n as [name|fn|]; unfold inspect; destruct (isEntry _);
      try destruct (isRead _); try destruct (isWrite _);
      try destruct (isExit _); cbn; lia. }
  destruct Hstep as (H1 & H2 & H3 & H4).
  refine (conj H1 (conj H2 (conj H3 (conj H4 _)))).
  intros fn -> Hn.
  assert (callName fn = ""%string) as Hname.
  { destruct fn as [name|x sel|]; [done| |done]. by destruct x. }
  unfold inspect, isEntry. rewrite Hname. cbn. by destruct r.
Qed.

Lemma unnamed_calls_count_nothing_witness :
  inspect {| Entries := 0; Exits := 0; Reads := 0; Writes := 0 |}
    (CallExpr (AstScan.SelectorExpr
                 (AstScan.SelectorExpr (AstScan.Ident "s") "db") "Query"))
  = {| Entries := 0; Exits := 0; Reads := 0; Writes := 0 |}.
Proof.
  destruct (unnamed_calls_count_nothing
              {| Entries := 0; Exits := 0; Reads := 0; Writes := 0 |}
              (CallExpr (AstScan.SelectorExpr
                 (AstScan.SelectorExpr (AstScan.Ident "s") "db") "Query")))
    as (_ & _ & _ & _ & H).
  apply (H _ eq_refl). reflexivity.
Defined.

End AstHints.
